(** * llm-mux: quota-group index and sharded token-count cache

    A shallow embedding of
      - [sdk/cliproxy/auth/quota_group.go] (resolver registry, family
        resolver, per-credential blocked-group index), and
      - the token cache of package [util] (sharded FIFO cache keyed by the
        FNV-1a hash of the content),
    followed by the properties the specification states about them.

    Go strings are byte sequences: they are modelled by [string], whose
    characters are the bytes.  Maps are [gmap]s, slices are lists, pointers
    that the code tests against [nil] are [option]s. *)

From Stdlib Require Import ZArith Lia Bool Ascii String.
From stdpp Require Import base decidable option list gmap strings fin_maps.

Local Open Scope Z_scope.

(** ** Bytes of a Go string *)

Module GoBytes.

(** The value of a byte, [0 <= byteval c < 256]. *)
Definition byteval (c : ascii) : Z := Z.of_N (N_of_ascii c).

(** The conversion [byte(z)], which keeps the low eight bits. *)
Definition byteof (z : Z) : ascii := ascii_of_N (Z.to_N (z mod 256)).

(** [len(s)] *)
Definition len (s : string) : nat := String.length s.

(** [s[:i]] and [s[i:]] for [i <= len(s)]. *)
Fixpoint sliceTo (i : nat) (s : string) : string :=
  match i, s with
  | S k, String c s' => String c (sliceTo k s')
  | _, _ => EmptyString
  end.

Fixpoint sliceFrom (i : nat) (s : string) : string :=
  match i, s with
  | S k, String _ s' => sliceFrom k s'
  | _, _ => s
  end.

(** [s[i]] for [i < len(s)]. *)
Definition byteAt (s : string) (i : nat) : Z :=
  match String.get i s with
  | Some c => byteval c
  | None => 0
  end.

(** Whether the first byte of [s] is [b]. *)
Definition startsWith (b : Z) (s : string) : bool :=
  match s with
  | String c _ => byteval c =? b
  | EmptyString => false
  end.

End GoBytes.

(** ** Package util: the token cache *)

Module Util.
Import GoBytes.

Definition numShards : Z := 16.
Definition maxEntriesPerShard : nat := 64.

(** [hash] is a [uint64]; [tokens] is an [int] that is only stored and
    returned, never computed with. *)
Record tokenCacheEntry := mkEntry { hash : Z; tokens : Z }.

(** The lock [mu] serialises the calls on one shard; the sequential
    model keeps the entries only. *)
Record tokenCacheShard := mkShard { entries : list tokenCacheEntry }.

(** [shards] is an array of [numShards] shard pointers, all of them set by
    [NewTokenCache]; the list has length 16 (see [cacheOk]). *)
Record TokenCache := mkCache { shards : list tokenCacheShard }.

Definition NewTokenCache : TokenCache :=
  mkCache (replicate (Z.to_nat numShards) (mkShard [])).

(** [hash/fnv] New64a: offset basis and prime of the 64-bit FNV-1a hash;
    each byte is xored into the state, which is then multiplied by the
    prime in [uint64] arithmetic. *)
Definition offset64 : Z := 14695981039346656037.
Definition prime64 : Z := 1099511628211.

Fixpoint fnvWrite (h : Z) (s : string) : Z :=
  match s with
  | EmptyString => h
  | String c s' => fnvWrite ((Z.lxor h (byteval c) * prime64) mod 2 ^ 64) s'
  end.

Definition hashContent (s : string) : Z := fnvWrite offset64 s.

(** [hash % numShards], the index into [tc.shards]. *)
Definition shardOf (h : Z) : nat := Z.to_nat (h mod numShards).

(** The loop of [Get] over one shard: the first entry with the hash. *)
Definition shardGet (h : Z) (sh : tokenCacheShard) : Z * bool :=
  match list_find (λ e, hash e = h) (entries sh) with
  | Some (_, e) => (tokens e, true)
  | None => (0, false)
  end.

(** The body of [Set] on the selected shard: the first entry with the
    hash has its [tokens] field overwritten at its index; otherwise the
    front entry is sliced away when the shard is full and the new entry is
    appended. *)
Definition shardSet (h t : Z) (sh : tokenCacheShard) : tokenCacheShard :=
  match list_find (λ e, hash e = h) (entries sh) with
  | Some (i, e) => mkShard (<[i := mkEntry (hash e) t]> (entries sh))
  | None =>
      let es := if decide (maxEntriesPerShard ≤ length (entries sh))%nat
                then drop 1 (entries sh) else entries sh in
      mkShard (es ++ [mkEntry h t])
  end.

(** [hash % numShards] is always a valid index of the array; the
    out-of-range branch exists only because the model is a list and is
    never taken on a cache of 16 shards. *)
Definition TokenCache_Get (tc : TokenCache) (content : string) : Z * bool :=
  let h := hashContent content in
  match shards tc !! shardOf h with
  | Some sh => shardGet h sh
  | None => (0, false)
  end.

Definition TokenCache_Set (tc : TokenCache) (content : string) (t : Z)
  : TokenCache :=
  let h := hashContent content in
  match shards tc !! shardOf h with
  | Some sh => mkCache (<[shardOf h := shardSet h t sh]> (shards tc))
  | None => tc
  end.

(** The state of a shard between two calls: within capacity, and no two
    entries with one hash. *)
Definition shardOk (sh : tokenCacheShard) : Prop :=
  (length (entries sh) ≤ maxEntriesPerShard)%nat ∧ NoDup (hash <$> entries sh).

(** The state of a cache between two calls: the array of 16 shards. *)
Definition cacheOk (tc : TokenCache) : Prop :=
  length (shards tc) = Z.to_nat numShards ∧ Forall shardOk (shards tc).

(** The entry that [Set(content, tokens)] appends. *)
Definition newEntry (call : string * Z) : tokenCacheEntry :=
  mkEntry (hashContent call.1) call.2.

(** The [n] entries at the back of a sequence. *)
Definition lastN {A : Type} (n : nat) (l : list A) : list A :=
  drop (length l - n) l.

(** A sequence of [Set] calls, oldest first. *)
Definition runSets (tc : TokenCache) (ops : list (string * Z)) : TokenCache :=
  foldl (λ c op, TokenCache_Set c op.1 op.2) tc ops.

End Util.


(** ** Package unicode/utf8 *)

Module Utf8.
Import GoBytes.

Definition RuneError : Z := 0xFFFD.
Definition RuneSelf : Z := 0x80.
Definition MaxRune : Z := 0x10FFFF.
Definition UTFMax : Z := 4.

(** The table [first] together with [acceptRanges]: for a leading byte of
    a multi-byte sequence, the length of the sequence and the range
    accepted for its second byte; [None] for ASCII and invalid leading
    bytes. *)
Definition first (s0 : Z) : option (nat * Z * Z) :=
  if (0xC2 <=? s0) && (s0 <=? 0xDF) then Some (2%nat, 0x80, 0xBF)
  else if s0 =? 0xE0 then Some (3%nat, 0xA0, 0xBF)
  else if (0xE1 <=? s0) && (s0 <=? 0xEC) then Some (3%nat, 0x80, 0xBF)
  else if s0 =? 0xED then Some (3%nat, 0x80, 0x9F)
  else if (0xEE <=? s0) && (s0 <=? 0xEF) then Some (3%nat, 0x80, 0xBF)
  else if s0 =? 0xF0 then Some (4%nat, 0x90, 0xBF)
  else if (0xF1 <=? s0) && (s0 <=? 0xF3) then Some (4%nat, 0x80, 0xBF)
  else if s0 =? 0xF4 then Some (4%nat, 0x80, 0x8F)
  else None.

(** Continuation bytes lie in [locb, hicb]. *)
Definition notCont (b : Z) : bool := (b <? 0x80) || (0xBF <? b).

(** [utf8.DecodeRuneInString]: the first rune of [s] and its width in
    bytes; an invalid or short encoding gives [(RuneError, 1)]. *)
Definition DecodeRuneInString (s : string) : Z * nat :=
  match s with
  | EmptyString => (RuneError, 0%nat)
  | String c0 t1 =>
      let s0 := byteval c0 in
      match first s0 with
      | None => (if s0 <? RuneSelf then s0 else RuneError, 1%nat)
      | Some (sz, lo, hi) =>
          if (len s <? sz)%nat then (RuneError, 1%nat) else
          match t1 with
          | EmptyString => (RuneError, 1%nat)
          | String c1 t2 =>
              let s1 := byteval c1 in
              if (s1 <? lo) || (hi <? s1) then (RuneError, 1%nat) else
              if (sz <=? 2)%nat then
                (Z.lor (Z.shiftl (Z.land s0 0x1F) 6) (Z.land s1 0x3F), 2%nat)
              else
              match t2 with
              | EmptyString => (RuneError, 1%nat)
              | String c2 t3 =>
                  let s2 := byteval c2 in
                  if notCont s2 then (RuneError, 1%nat) else
                  if (sz <=? 3)%nat then
                    (Z.lor (Z.shiftl (Z.land s0 0x0F) 12)
                       (Z.lor (Z.shiftl (Z.land s1 0x3F) 6) (Z.land s2 0x3F)),
                     3%nat)
                  else
                  match t3 with
                  | EmptyString => (RuneError, 1%nat)
                  | String c3 _ =>
                      let s3 := byteval c3 in
                      if notCont s3 then (RuneError, 1%nat) else
                      (Z.lor (Z.shiftl (Z.land s0 0x07) 18)
                         (Z.lor (Z.shiftl (Z.land s1 0x3F) 12)
                            (Z.lor (Z.shiftl (Z.land s2 0x3F) 6)
                               (Z.land s3 0x3F))),
                       4%nat)
                  end
              end
          end
      end
  end.

(** [for i, r := range s]: the pairs of byte index and rune the loop
    visits.  [skip] counts the bytes of the current rune still to pass. *)
Fixpoint rangeFrom (i skip : nat) (s : string) : list (nat * Z) :=
  match s with
  | EmptyString => []
  | String _ s' =>
      match skip with
      | S k => rangeFrom (S i) k s'
      | O => let '(r, w) := DecodeRuneInString s in
             (i, r) :: rangeFrom (S i) (w - 1) s'
      end
  end.

Definition range (s : string) : list (nat * Z) := rangeFrom 0 0 s.

(** [utf8.AppendRune] to an empty buffer: the UTF-8 encoding of [r];
    runes out of range and surrogates are written as [RuneError]. *)
Definition AppendRune (r : Z) : string :=
  let i := r mod 2 ^ 32 in
  let three (r : Z) :=
    String (byteof (Z.lor 0xE0 (Z.shiftr r 12)))
      (String (byteof (Z.lor 0x80 (Z.land (Z.shiftr r 6) 0x3F)))
         (String (byteof (Z.lor 0x80 (Z.land r 0x3F))) EmptyString)) in
  if i <=? 0x7F then String (byteof r) EmptyString
  else if i <=? 0x7FF then
    String (byteof (Z.lor 0xC0 (Z.shiftr r 6)))
      (String (byteof (Z.lor 0x80 (Z.land r 0x3F))) EmptyString)
  else if (MaxRune <? i) || ((0xD800 <=? i) && (i <=? 0xDFFF)) then
    three RuneError
  else if i <=? 0xFFFF then three r
  else
    String (byteof (Z.lor 0xF0 (Z.shiftr r 18)))
      (String (byteof (Z.lor 0x80 (Z.land (Z.shiftr r 12) 0x3F)))
         (String (byteof (Z.lor 0x80 (Z.land (Z.shiftr r 6) 0x3F)))
            (String (byteof (Z.lor 0x80 (Z.land r 0x3F))) EmptyString))).

(** [utf8.RuneStart]: not a continuation byte. *)
Definition RuneStart (b : Z) : bool := negb (Z.land b 0xC0 =? 0x80).

(** The backward scan of [DecodeLastRuneInString]:
    [for start--; start >= lim; start-- { if RuneStart(s[start]) { break } }],
    entered with [start] already decremented.  It makes at most [UTFMax]
    tests of the loop condition. *)
Fixpoint scanBack (fuel : nat) (s : string) (lim start : Z) : Z :=
  match fuel with
  | O => start
  | S k =>
      if start <? lim then start
      else if RuneStart (byteAt s (Z.to_nat start)) then start
      else scanBack k s lim (start - 1)
  end.

(** [utf8.DecodeLastRuneInString] *)
Definition DecodeLastRuneInString (s : string) : Z * nat :=
  let end_ := Z.of_nat (len s) in
  if end_ =? 0 then (RuneError, 0%nat) else
  let start := end_ - 1 in
  let r := byteAt s (Z.to_nat start) in
  if r <? RuneSelf then (r, 1%nat) else
  let lim := Z.max 0 (end_ - UTFMax) in
  let start := scanBack (Z.to_nat UTFMax) s lim (start - 1) in
  let start := Z.max 0 start in
  let '(r, size) := DecodeRuneInString (sliceFrom (Z.to_nat start) s) in
  if negb (start + Z.of_nat size =? end_) then (RuneError, 1%nat)
  else (r, size).

End Utf8.

(** ** Package unicode *)

(** The case tables of package unicode are not part of the repository.
    [To_LowerCase r] stands for [unicode.To(unicode.LowerCase, r)], which
    [unicode.ToLower] consults for the runes above [MaxASCII]. *)
Class CaseTables := { To_LowerCase : Z → Z }.

Module Unicode.

Definition MaxASCII : Z := 0x7F.
Definition MaxLatin1 : Z := 0xFF.

(** [unicode.ToLower] *)
Definition ToLower `{CaseTables} (r : Z) : Z :=
  if r <=? MaxASCII then
    (if (65 <=? r) && (r <=? 90) then r + 32 else r)
  else To_LowerCase r.

(** [unicode.IsSpace]: the Latin-1 spaces, and the code points of the
    White_Space property above Latin-1. *)
Definition IsSpace (r : Z) : bool :=
  if (r mod 2 ^ 32) <=? MaxLatin1 then
    (r =? 9) || (r =? 10) || (r =? 11) || (r =? 12) || (r =? 13)
    || (r =? 32) || (r =? 0x85) || (r =? 0xA0)
  else
    (r =? 0x1680) || ((0x2000 <=? r) && (r <=? 0x200A))
    || (r =? 0x2028) || (r =? 0x2029) || (r =? 0x202F)
    || (r =? 0x205F) || (r =? 0x3000).

(** What the properties below need to know of the tables: the
    lower-case mapping of a rune above ASCII is an [int32] rune, and it is
    never a blank or a control character. *)
Definition tablesAvoidBlank `{CaseTables} : Prop :=
  ∀ r : Z, 127 < r <= 0x10FFFF → 32 < To_LowerCase r < 2 ^ 31.

End Unicode.

(** ** Package strings *)

Module Strings.
Import GoBytes Utf8.

(** [strings.Map]: every rune of [s] is replaced by the encoding of its
    image, and dropped when the image is negative.  Invalid bytes are
    visited as [RuneError]. *)
Definition Map (mapping : Z → Z) (s : string) : string :=
  foldr (λ ir acc, let r := mapping ir.2 in
                   if 0 <=? r then AppendRune r +:+ acc else acc)
        EmptyString (range s).

(** The first loop of [strings.ToLower]. *)
Fixpoint isASCII (s : string) : bool :=
  match s with
  | EmptyString => true
  | String c s' => (byteval c <? RuneSelf) && isASCII s'
  end.

Fixpoint hasUpper (s : string) : bool :=
  match s with
  | EmptyString => false
  | String c s' => ((65 <=? byteval c) && (byteval c <=? 90)) || hasUpper s'
  end.

(** The byte loop of the ASCII path: [c += 'a' - 'A'] for upper-case
    letters. *)
Fixpoint lowerBytes (s : string) : string :=
  match s with
  | EmptyString => EmptyString
  | String c s' =>
      let b := byteval c in
      String (if (65 <=? b) && (b <=? 90) then byteof (b + 32) else c)
             (lowerBytes s')
  end.

(** [strings.ToLower] *)
Definition ToLower `{CaseTables} (s : string) : string :=
  if isASCII s then (if hasUpper s then lowerBytes s else s)
  else Map Unicode.ToLower s.

(** [asciiSpace]: tab, newline, vertical tab, form feed, carriage
    return, space. *)
Definition asciiSpace (b : Z) : bool :=
  (b =? 9) || (b =? 10) || (b =? 11) || (b =? 12) || (b =? 13) || (b =? 32).

(** [indexFunc(s, f, truth)]: index of the first rune with
    [f(r) == truth], or -1. *)
Definition indexFunc (s : string) (f : Z → bool) (truth : bool) : Z :=
  match list_find (λ ir, f ir.2 = truth) (range s) with
  | Some (_, (i, _)) => Z.of_nat i
  | None => -1
  end.

(** The loop of [lastIndexFunc], entered with [i = len(s)]; every turn
    lowers [i] by the width of the last rune of [s[0:i]], which is at least
    one, so [i] turns are enough. *)
Fixpoint lastIndexLoop (fuel : nat) (s : string) (f : Z → bool)
    (truth : bool) (i : nat) : Z :=
  match fuel with
  | O => -1
  | S k =>
      if (0 <? i)%nat then
        let '(r, size) := DecodeLastRuneInString (sliceTo i s) in
        let i := (i - size)%nat in
        if bool_decide (f r = truth) then Z.of_nat i
        else lastIndexLoop k s f truth i
      else -1
  end.

Definition lastIndexFunc (s : string) (f : Z → bool) (truth : bool) : Z :=
  lastIndexLoop (S (len s)) s f truth (len s).

Definition TrimLeftFunc (s : string) (f : Z → bool) : string :=
  let i := indexFunc s f false in
  if i =? -1 then EmptyString else sliceFrom (Z.to_nat i) s.

Definition TrimRightFunc (s : string) (f : Z → bool) : string :=
  let i := lastIndexFunc s f false in
  let i :=
    if (0 <=? i) && (RuneSelf <=? byteAt s (Z.to_nat i)) then
      i + Z.of_nat (DecodeRuneInString (sliceFrom (Z.to_nat i) s)).2
    else i + 1 in
  sliceTo (Z.to_nat i) s.

Definition TrimFunc (s : string) (f : Z → bool) : string :=
  TrimRightFunc (TrimLeftFunc s f) f.

(** The second loop of [strings.TrimSpace], on [t = s[start:]] with
    [stop] counted from [start]. *)
Fixpoint trimSpaceStop (t : string) (stop : nat) : string :=
  match stop with
  | O => EmptyString
  | S k =>
      let c := byteAt t k in
      if RuneSelf <=? c then TrimRightFunc (sliceTo stop t) Unicode.IsSpace
      else if asciiSpace c then trimSpaceStop t k
      else sliceTo stop t
  end.

(** [strings.TrimSpace]: the first loop walks [start] over the leading
    ASCII spaces and hands over to [TrimFunc] at the first non-ASCII
    byte. *)
Fixpoint TrimSpace (s : string) : string :=
  match s with
  | EmptyString => EmptyString
  | String c s' =>
      if RuneSelf <=? byteval c then TrimFunc s Unicode.IsSpace
      else if asciiSpace (byteval c) then TrimSpace s'
      else trimSpaceStop s (len s)
  end.

End Strings.

(** ** Package time *)

Module GoTime.

(** A [time.Time] as the instant it denotes: seconds since January 1,
    year 1 00:00:00 UTC and nanoseconds within the second, which is what
    [sec()] and [nsec()] read.  The location does not take part in
    comparisons, and monotonic clock readings are not modelled. *)
Record Time := mkTime { sec : Z; nsec : Z }.

(** [time.Time{}] *)
Definition zeroTime : Time := mkTime 0 0.

(** [t.After(u)] *)
Definition After (t u : Time) : bool :=
  (sec u <? sec t) || ((sec t =? sec u) && (nsec u <? nsec t)).

(** [t.IsZero()] *)
Definition IsZero (t : Time) : bool := (sec t =? 0) && (nsec t =? 0).

(** A [time.Duration] counts nanoseconds. *)
Definition Second : Z := 1000000000.

(** [t.Add(d)]; Go's [/] and [%] truncate towards zero. *)
Definition Add (t : Time) (d : Z) : Time :=
  let dsec := Z.quot d 1000000000 in
  let ns := nsec t + Z.rem d 1000000000 in
  if 1000000000 <=? ns then mkTime (sec t + (dsec + 1)) (ns - 1000000000)
  else if ns <? 0 then mkTime (sec t + (dsec - 1)) (ns + 1000000000)
  else mkTime (sec t + dsec) ns.

End GoTime.

(** ** Package auth: quota groups *)

Module Auth.
Import GoBytes Utf8 Strings GoTime.

(** [type QuotaGroupResolver func(provider, model string) string];
    [None] is the [nil] function value. *)
Abbreviation QuotaGroupResolver := (option (string → string → string)).

(** The two package-level maps guarded by [quotaGroupMu]. *)
Record registry := mkRegistry {
  quotaGroupResolvers : gmap string QuotaGroupResolver;
  quotaGroupProviders : gset string
}.

(** Both maps as [make] leaves them. *)
Definition emptyRegistry : registry := mkRegistry ∅ ∅.

(** [*quotaGroupState] *)
Record quotaGroupState := mkState {
  NextRetryAfter : Time;
  NextRecoverAt : Time;
  SourceModel : string
}.

(** [quotaGroupIndex]: [blockedGroups] is [None] for the [nil] map, and
    a value of the map is [None] for a [nil] state pointer. *)
Record quotaGroupIndex := mkIndex {
  blockedGroups : option (gmap string (option quotaGroupState))
}.

Section WithCaseTables.
Context `{CaseTables}.

Definition RegisterQuotaGroupResolver (provider : string)
    (resolver : QuotaGroupResolver) (reg : registry) : registry :=
  let provider := ToLower (TrimSpace provider) in
  if bool_decide (provider = EmptyString) || bool_decide (resolver = None)
  then reg
  else mkRegistry (<[provider := resolver]> (quotaGroupResolvers reg))
                  ({[provider]} ∪ quotaGroupProviders reg).

Definition HasQuotaGrouping (provider : string) (reg : registry) : bool :=
  let provider := ToLower provider in
  bool_decide (provider ∈ quotaGroupProviders reg).

Definition ResolveQuotaGroup (provider model : string) (reg : registry)
  : string :=
  if bool_decide (provider = EmptyString) || bool_decide (model = EmptyString)
  then EmptyString
  else
    let providerLower := ToLower provider in
    match quotaGroupResolvers reg !! providerLower with
    | Some (Some resolver) => resolver providerLower model
    | _ => EmptyString
    end.

(** ['-'], ['_'], ['.'] *)
Definition isDelimiter (r : Z) : bool := (r =? 45) || (r =? 95) || (r =? 46).

(** The identifier starts with one of the delimiters. *)
Definition startsWithDelimiter (model : string) : bool :=
  match model with
  | String c _ => isDelimiter (byteval c)
  | EmptyString => false
  end.

Definition extractModelFamily (model : string) : string :=
  if bool_decide (model = EmptyString) then EmptyString
  else
    let modelLower := ToLower model in
    match list_find (λ ir, isDelimiter ir.2 = true) (range modelLower) with
    | Some (_, (i, _)) =>
        if (0 <? i)%nat then sliceTo i modelLower else EmptyString
    | None => modelLower
    end.

Definition AntigravityQuotaGroupResolver (provider model : string) : string :=
  extractModelFamily model.

(** [init] *)
Definition init (reg : registry) : registry :=
  RegisterQuotaGroupResolver "antigravity"
    (Some AntigravityQuotaGroupResolver) reg.

(** A history of [RegisterQuotaGroupResolver] calls, oldest first,
    run on the empty maps. *)
Definition registryAfter (calls : list (string * QuotaGroupResolver))
  : registry :=
  foldl (λ reg call, RegisterQuotaGroupResolver call.1 call.2 reg)
        emptyRegistry calls.

(** The call [init] makes when the package is loaded; every history of
    the running program starts with it. *)
Definition initCall : string * QuotaGroupResolver :=
  ("antigravity"%string, Some AntigravityQuotaGroupResolver).

End WithCaseTables.

(** The methods take the receiver [idx] ([None] for a [nil] pointer) and
    return the index as the call leaves it. *)
Definition setGroupBlocked (group sourceModel : string)
    (nextRetry nextRecover : Time) (idx : option quotaGroupIndex)
  : option quotaGroupIndex :=
  match idx with
  | None => None
  | Some ix =>
      if bool_decide (group = EmptyString) then idx
      else
        let m := match blockedGroups ix with
                 | None => ∅
                 | Some m => m
                 end in
        Some (mkIndex
                (Some (<[group := Some (mkState nextRetry nextRecover sourceModel)]> m)))
  end.

Definition clearGroup (group : string) (idx : option quotaGroupIndex)
  : option quotaGroupIndex :=
  match idx with
  | None => None
  | Some ix =>
      match blockedGroups ix with
      | None => idx
      | Some m => Some (mkIndex (Some (delete group m)))
      end
  end.

Definition isGroupBlocked (group : string) (now : Time)
    (idx : option quotaGroupIndex)
  : (bool * Time) * option quotaGroupIndex :=
  match idx with
  | None => ((false, zeroTime), idx)
  | Some ix =>
      match blockedGroups ix with
      | None => ((false, zeroTime), idx)
      | Some m =>
          if bool_decide (group = EmptyString) then ((false, zeroTime), idx)
          else
            match m !! group with
            | Some (Some state) =>
                if After (NextRetryAfter state) now then
                  let next := NextRetryAfter state in
                  let next :=
                    if negb (IsZero (NextRecoverAt state))
                       && After (NextRecoverAt state) now
                       && After (NextRecoverAt state) next
                    then NextRecoverAt state else next in
                  ((true, next), idx)
                else
                  ((false, zeroTime), Some (mkIndex (Some (delete group m))))
            | _ => ((false, zeroTime), idx)
            end
      end
  end.

End Auth.

(** ** Package util: histories of calls *)

Module UtilHistory.
Import GoBytes Util.

(** The token count of the most recent call in [ops] whose content has
    hash [h], if there is one. *)
Definition lastTokens (ops : list (string * Z)) (h : Z) : option Z :=
  foldl (λ acc op, if decide (hashContent op.1 = h) then Some op.2 else acc)
        None ops.

(** The number of entries a cache holds, over all shards. *)
Definition cacheSize (tc : TokenCache) : nat :=
  sum_list ((λ sh, length (entries sh)) <$> shards tc).

(** The hash of the entry that [Set(content, _)] removes from [tc]: the
    front entry of the content's shard, when the hash of the content is not
    in the shard and the shard is full. *)
Definition evictedHash (tc : TokenCache) (content : string) : option Z :=
  let h := hashContent content in
  match shards tc !! shardOf h with
  | Some sh =>
      match list_find (λ e, hash e = h) (entries sh) with
      | Some _ => None
      | None =>
          if decide (maxEntriesPerShard ≤ length (entries sh))%nat
          then hash <$> head (entries sh) else None
      end
  | None => None
  end.

End UtilHistory.

(** ** Package auth: the runtime slot of a credential *)

Module AuthRuntime.
Import GoTime Auth.

(** A [*quotaGroupIndex] is an address in the store of index objects;
    [None] is the [nil] pointer. *)
Abbreviation indexPtr := (option positive).
Abbreviation indexStore := (gmap positive quotaGroupIndex).

(** The dynamic value of the interface field [auth.Runtime]: the [nil]
    interface, a [*quotaGroupIndex] (which may itself be a [nil] pointer), or
    a value of some other dynamic type. *)
Inductive runtimeValue :=
| RuntimeNil
| RuntimeIndex (p : indexPtr)
| RuntimeOther (v : nat).

(** Modelled from the spec: the struct [Auth] is declared in another file of
    package auth, which is not among the sources.  quota_group.go reads and
    assigns only its field [Runtime], the credential's mutable runtime slot
    of interface type; the other fields are left out. *)
Record Auth := mkAuth { Runtime : runtimeValue }.

(** [&quotaGroupIndex{blockedGroups: make(map[string]*quotaGroupState)}] *)
Definition emptyIndex : quotaGroupIndex := mkIndex (Some ∅).

(** [getOrCreateQuotaGroupIndex]: the receiver [auth] is [None] for a
    [nil] pointer; the result is the returned pointer, the credential and
    the store as the call leaves them.  A new index is allocated at an
    address the store does not use. *)
Definition getOrCreateQuotaGroupIndex (auth : option Auth) (st : indexStore)
  : indexPtr * option Auth * indexStore :=
  match auth with
  | None => (None, None, st)
  | Some a =>
      let create :=
        let l := fresh (dom st) in
        (Some l, Some (mkAuth (RuntimeIndex (Some l))), <[l := emptyIndex]> st) in
      match Runtime a with
      | RuntimeNil => create
      | RuntimeIndex p => (p, auth, st)
      | RuntimeOther _ => create
      end
  end.

(** [getQuotaGroupIndex] *)
Definition getQuotaGroupIndex (auth : option Auth) : indexPtr :=
  match auth with
  | None => None
  | Some a =>
      match Runtime a with
      | RuntimeIndex p => p
      | _ => None
      end
  end.

(** The object a pointer refers to, as the methods of [quotaGroupIndex]
    take their receiver. *)
Definition deref (p : indexPtr) (st : indexStore) : option quotaGroupIndex :=
  match p with
  | Some l => st !! l
  | None => None
  end.

End AuthRuntime.

(** ** Shapes of provider names and model identifiers *)

Module StringsSpec.
Import GoBytes Strings.

(** Every byte of [s] is one of the six ASCII white space bytes. *)
Fixpoint onlyAsciiSpace (s : string) : bool :=
  match s with
  | EmptyString => true
  | String c s' => asciiSpace (byteval c) && onlyAsciiSpace s'
  end.

End StringsSpec.

Module FamilySpec.
Import GoBytes Strings Auth.

(** Every byte of [s] is ASCII and none is a delimiter. *)
Fixpoint plainAscii (s : string) : bool :=
  match s with
  | EmptyString => true
  | String c s' =>
      (byteval c <? 128) && negb (isDelimiter (byteval c)) && plainAscii s'
  end.

(** Some byte of [s] is one of the delimiters. *)
Fixpoint hasDelimiterByte (s : string) : bool :=
  match s with
  | EmptyString => false
  | String c s' => isDelimiter (byteval c) || hasDelimiterByte s'
  end.

End FamilySpec.

(** ** Sample inputs *)

Module Samples.
Import GoTime Auth.

(** Tables without any case mapping above ASCII: a rune is returned
    unchanged, and [ReplacementChar] for a value that is no rune.  They
    stand in for the tables where a statement is about concrete ASCII
    input, on which the tables are not consulted. *)
Definition caselessTables : CaseTables :=
  {| To_LowerCase r := if r <=? Utf8.MaxRune then r else 0xFFFD |}.

(** 2025-01-01 00:00:00 UTC. *)
Definition newYear : Time := mkTime 63871286400 0.

(** An index as [getOrCreateQuotaGroupIndex] makes it. *)
Definition freshIndex : option quotaGroupIndex := Some (mkIndex (Some ∅)).

(** Sixty-five calls of [Set] whose contents all hash to shard 3, with
    pairwise distinct hashes: a first call, sixty-three more that fill the
    shard together with it, and one call more. *)
Definition firstCall : string * Z := ("prompt-3"%string, 1).

Definition middleCalls : list (string * Z) :=
  [
   ("prompt-18", 2); ("prompt-21", 3); ("prompt-32", 4); ("prompt-43", 5);
   ("prompt-54", 6); ("prompt-90", 7); ("prompt-119", 8);
   ("prompt-120", 9); ("prompt-146", 10); ("prompt-155", 11);
   ("prompt-182", 12); ("prompt-191", 13); ("prompt-201", 14);
   ("prompt-212", 15); ("prompt-227", 16); ("prompt-238", 17);
   ("prompt-263", 18); ("prompt-274", 19); ("prompt-289", 20);
   ("prompt-308", 21); ("prompt-317", 22); ("prompt-322", 23);
   ("prompt-331", 24); ("prompt-344", 25); ("prompt-353", 26);
   ("prompt-380", 27); ("prompt-407", 28); ("prompt-418", 29);
   ("prompt-421", 30); ("prompt-432", 31); ("prompt-443", 32);
   ("prompt-454", 33); ("prompt-490", 34); ("prompt-524", 35);
   ("prompt-533", 36); ("prompt-542", 37); ("prompt-551", 38);
   ("prompt-568", 39); ("prompt-577", 40); ("prompt-586", 41);
   ("prompt-595", 42); ("prompt-605", 43); ("prompt-616", 44);
   ("prompt-649", 45); ("prompt-670", 46); ("prompt-726", 47);
   ("prompt-735", 48); ("prompt-740", 49); ("prompt-779", 50);
   ("prompt-784", 51); ("prompt-793", 52); ("prompt-825", 53);
   ("prompt-836", 54); ("prompt-850", 55); ("prompt-869", 56);
   ("prompt-883", 57); ("prompt-894", 58); ("prompt-902", 59);
   ("prompt-911", 60); ("prompt-928", 61); ("prompt-937", 62);
   ("prompt-964", 63); ("prompt-973", 64)
  ]%string.

Definition oneMore : string * Z := ("prompt-999"%string, 65).

Definition fillShard3 : list (string * Z) := firstCall :: middleCalls.

Definition laterCalls : list (string * Z) := middleCalls ++ [oneMore].

End Samples.

(** * Properties *)

(** ** Bytes, UTF-8 and the string functions *)

Module StringFacts.
Import GoBytes Utf8 Strings.

Lemma byteval_range (c : ascii) : 0 <= byteval c < 256.
Proof.
  unfold byteval. pose proof (N_ascii_bounded c). lia.
Qed.

Lemma byteval_byteof (z : Z) : byteval (byteof z) = z mod 256.
Proof.
  unfold byteval, byteof.
  pose proof (Z.mod_pos_bound z 256 ltac:(lia)).
  rewrite N_ascii_embedding by lia. lia.
Qed.

Lemma byteof_byteval (c : ascii) : byteof (byteval c) = c.
Proof.
  unfold byteof. rewrite Z.mod_small by apply byteval_range.
  unfold byteval. rewrite N2Z.id. apply ascii_N_embedding.
Qed.

Lemma lor_shiftl_add (a b n : Z) :
  0 <= a → 0 <= n → 0 <= b < 2 ^ n → Z.lor (Z.shiftl a n) b = a * 2 ^ n + b.
Proof.
  intros Ha Hn Hb.
  rewrite Z.shiftl_mul_pow2 by lia.
  assert (Hland : Z.land (a * 2 ^ n) b = 0).
  { apply Z.bits_inj'; intros k Hk. rewrite Z.land_spec, Z.bits_0.
    destruct (Z.lt_ge_cases k n) as [Hlt|Hge].
    - rewrite Z.mul_pow2_bits_low by lia. reflexivity.
    - rewrite <- (Z.mod_small b (2 ^ n)) by lia.
      rewrite Z.mod_pow2_bits_high by lia. apply andb_false_r. }
  rewrite <- Z.lxor_lor, <- Z.add_nocarry_lxor by exact Hland. reflexivity.
Qed.


Lemma first_Some (b : Z) (sz : nat) (lo hi : Z) :
  first b = Some (sz, lo, hi) →
  128 <= lo ∧ hi <= 191 ∧
  ((sz = 2%nat ∧ 194 <= b <= 223)
   ∨ (sz = 3%nat ∧ 224 <= b <= 239 ∧ (b = 224 → lo = 160))
   ∨ (sz = 4%nat ∧ 240 <= b <= 244 ∧ (b = 240 → lo = 144)
      ∧ (b = 244 → hi = 143))).
Proof.
  unfold first. intros Hf.
  repeat match type of Hf with
         | (if ?g then _ else _) = _ => destruct g eqn:?
         end; inversion Hf; subst; lia.
Qed.

Lemma first_ascii (b : Z) : b < 194 → first b = None.
Proof.
  intros Hb. unfold first.
  repeat match goal with
         | |- (if ?g then _ else _) = _ => destruct g eqn:?
         end; try reflexivity; lia.
Qed.

Lemma DecodeRune_ascii (c : ascii) (s : string) :
  byteval c < 128 → DecodeRuneInString (String c s) = (byteval c, 1%nat).
Proof.
  intros Hc. unfold DecodeRuneInString.
  rewrite first_ascii by lia. unfold RuneSelf.
  destruct (Z.ltb_spec (byteval c) 128); [reflexivity|lia].
Qed.

Lemma land_mod (x : Z) :
  Z.land x 63 = x mod 64 ∧ Z.land x 31 = x mod 32
  ∧ Z.land x 15 = x mod 16 ∧ Z.land x 7 = x mod 8.
Proof.
  repeat split.
  - apply (Z.land_ones x 6). lia.
  - apply (Z.land_ones x 5). lia.
  - apply (Z.land_ones x 4). lia.
  - apply (Z.land_ones x 3). lia.
Qed.

(** A sequence that starts with a non-ASCII byte never decodes to an
    ASCII rune, and never to a value above [MaxRune]. *)
Lemma DecodeRune_nonascii (c : ascii) (s : string) :
  128 <= byteval c → 128 <= (DecodeRuneInString (String c s)).1 <= MaxRune.
Proof.
  intros Hc. unfold DecodeRuneInString, MaxRune.
  pose proof (byteval_range c) as Hr0.
  destruct (first (byteval c)) as [[[sz lo] hi]|] eqn:Hf.
  2:{ unfold RuneSelf, RuneError.
      destruct (Z.ltb_spec (byteval c) 128); simpl; lia. }
  apply first_Some in Hf as (Hlo & Hhi & Hsz).
  unfold RuneError, notCont.
  destruct (len (String c s) <? sz)%nat; [simpl; lia|].
  destruct s as [|c1 s]; [simpl; lia|].
  pose proof (byteval_range c1) as Hr1.
  destruct (Z.ltb_spec (byteval c1) lo); [simpl; lia|].
  destruct (Z.ltb_spec hi (byteval c1)); [simpl; lia|]. cbn [orb].
  destruct (land_mod (byteval c)) as (_ & H5 & H4 & H3).
  destruct (land_mod (byteval c1)) as (H16 & _).
  destruct Hsz as [[-> Hb]|[(-> & Hb & Hl)|(-> & Hb & Hl & Hh)]]; cbn [Nat.leb].
  - rewrite H5, H16, lor_shiftl_add; cbn [fst]; Z.div_mod_to_equations; lia.
  - destruct s as [|c2 s]; [simpl; lia|].
    pose proof (byteval_range c2) as Hr2.
    destruct (Z.ltb_spec (byteval c2) 128); [simpl; lia|].
    destruct (Z.ltb_spec 191 (byteval c2)); [simpl; lia|]. cbn [orb fst].
    destruct (land_mod (byteval c2)) as (H26 & _).
    rewrite H4, H16, H26.
    rewrite (lor_shiftl_add (byteval c1 mod 64) _ 6) by (Z.div_mod_to_equations; lia).
    rewrite lor_shiftl_add; Z.div_mod_to_equations; lia.
  - destruct s as [|c2 s]; [simpl; lia|].
    pose proof (byteval_range c2) as Hr2.
    destruct (Z.ltb_spec (byteval c2) 128); [simpl; lia|].
    destruct (Z.ltb_spec 191 (byteval c2)); [simpl; lia|]. cbn [orb].
    destruct s as [|c3 s]; [simpl; lia|].
    pose proof (byteval_range c3) as Hr3.
    destruct (Z.ltb_spec (byteval c3) 128); [simpl; lia|].
    destruct (Z.ltb_spec 191 (byteval c3)); [simpl; lia|]. cbn [orb fst].
    destruct (land_mod (byteval c2)) as (H26 & _).
    destruct (land_mod (byteval c3)) as (H36 & _).
    rewrite H3, H16, H26, H36.
    rewrite (lor_shiftl_add (byteval c2 mod 64) _ 6) by (Z.div_mod_to_equations; lia).
    rewrite (lor_shiftl_add (byteval c1 mod 64) _ 12) by (Z.div_mod_to_equations; lia).
    rewrite lor_shiftl_add; Z.div_mod_to_equations; lia.
Qed.


Lemma rangeFrom_cons (i0 : nat) (c : ascii) (s : string) :
  rangeFrom i0 0 (String c s) =
    (i0, (DecodeRuneInString (String c s)).1)
      :: rangeFrom (S i0) ((DecodeRuneInString (String c s)).2 - 1) s.
Proof.
  cbn [rangeFrom]. destruct (DecodeRuneInString (String c s)). reflexivity.
Qed.

(** Every pair the range loop visits is the rune decoded at that index. *)
Lemma rangeFrom_elem (s : string) : ∀ (i0 k i : nat) (r : Z),
  (i, r) ∈ rangeFrom i0 k s →
  ∃ (j : nat) (c : ascii) (t : string),
    i = (i0 + j)%nat ∧ sliceFrom j s = String c t
    ∧ r = (DecodeRuneInString (String c t)).1.
Proof.
  induction s as [|a s IH]; intros i0 k i r Hin.
  - cbn in Hin. inversion Hin.
  - destruct k as [|k].
    + rewrite rangeFrom_cons in Hin.
      apply elem_of_cons in Hin as [Heq|Hin].
      * inversion Heq; subst. exists 0%nat, a, s.
        repeat split. lia.
      * apply IH in Hin as (j & c & t & -> & Hs & ->).
        exists (S j), c, t. repeat split; [lia|exact Hs].
    + cbn [rangeFrom] in Hin.
      apply IH in Hin as (j & c & t & -> & Hs & ->).
      exists (S j), c, t. repeat split; [lia|exact Hs].
Qed.

Lemma AppendRune_ascii (v : Z) :
  0 <= v <= 127 → AppendRune v = String (byteof v) EmptyString.
Proof.
  intros Hv. unfold AppendRune.
  rewrite (Z.mod_small v) by lia.
  destruct (Z.leb_spec v 127); [reflexivity|lia].
Qed.

Lemma byteof_high_bit (v : Z) :
  Z.testbit v 7 = true → 128 <= byteval (byteof v).
Proof.
  intros Hbit. rewrite byteval_byteof.
  pose proof (Z.mod_pos_bound v 256 ltac:(lia)) as Hb.
  destruct (Z.lt_ge_cases (v mod 256) 128) as [Hlt|]; [|assumption].
  assert (Z.testbit (v mod 2 ^ 8) 7 = false) as Hf.
  { rewrite <- (Z.mod_small (v mod 2 ^ 8) (2 ^ 7)) by (change (2 ^ 8) with 256; lia).
    apply Z.mod_pow2_bits_high. lia. }
  rewrite Z.mod_pow2_bits_low in Hf by lia. congruence.
Qed.

Lemma lor_high_bit (hi v : Z) :
  Z.testbit hi 7 = true → 128 <= byteval (byteof (Z.lor hi v)).
Proof.
  intros Hbit. apply byteof_high_bit. rewrite Z.lor_spec, Hbit. reflexivity.
Qed.

(** The encoding of a rune above ASCII starts with a byte above ASCII. *)
Lemma AppendRune_high (x : Z) :
  127 < x < 2 ^ 31 →
  ∃ (c : ascii) (t : string), AppendRune x = String c t ∧ 128 <= byteval c.
Proof.
  intros Hx. unfold AppendRune.
  rewrite (Z.mod_small x) by lia.
  destruct (Z.leb_spec x 127); [lia|].
  repeat match goal with
         | |- context [if ?g then _ else _] => destruct g
         end; eexists _, _; (split; [reflexivity|]); apply lor_high_bit; reflexivity.
Qed.

Lemma sliceTo_startsWith (b : Z) (n : nat) (t : string) :
  startsWith b t = false → startsWith b (sliceTo n t) = false.
Proof. destruct n, t; simpl; auto. Qed.

Lemma TrimRightFunc_startsWith (b : Z) (t : string) (f : Z → bool) :
  startsWith b t = false → startsWith b (TrimRightFunc t f) = false.
Proof. apply sliceTo_startsWith. Qed.

Lemma trimSpaceStop_startsWith (b : Z) (t : string) (n : nat) :
  startsWith b t = false → startsWith b (trimSpaceStop t n) = false.
Proof.
  intros Ht. induction n as [|n IH]; [reflexivity|].
  cbn [trimSpaceStop].
  repeat match goal with
         | |- context [if ?g then _ else _] => destruct g
         end;
    auto using sliceTo_startsWith, TrimRightFunc_startsWith.
Qed.

(** What [TrimLeftFunc] keeps starts with a rune that is no space. *)
Lemma TrimLeftFunc_IsSpace_startsWith (s : string) :
  startsWith 32 (TrimLeftFunc s Unicode.IsSpace) = false.
Proof.
  unfold TrimLeftFunc, indexFunc.
  destruct (list_find _ (range s)) as [[n [i r]]|] eqn:Hfind; [|reflexivity].
  apply list_find_Some in Hfind as (Hl & Hsp & _).
  apply list_elem_of_lookup_2 in Hl.
  apply rangeFrom_elem in Hl as (j & c & t & -> & Hs & ->).
  cbn [snd] in Hsp.
  destruct (Z.eqb_spec (Z.of_nat (0 + j)) (-1)); [lia|].
  rewrite Nat2Z.id. cbn [Nat.add]. rewrite Hs. cbn [startsWith].
  destruct (Z.eqb_spec (byteval c) 32) as [Heq|]; [|reflexivity].
  rewrite DecodeRune_ascii in Hsp by lia. rewrite Heq in Hsp.
  discriminate.
Qed.

(** [TrimSpace] never returns a string that starts with a blank. *)
Lemma TrimSpace_startsWith (s : string) :
  startsWith 32 (TrimSpace s) = false.
Proof.
  induction s as [|c s IH]; [reflexivity|].
  cbn [TrimSpace].
  destruct (RuneSelf <=? byteval c).
  - apply TrimRightFunc_startsWith, TrimLeftFunc_IsSpace_startsWith.
  - destruct (asciiSpace (byteval c)) eqn:Hsp; [exact IH|].
    apply trimSpaceStop_startsWith. cbn [startsWith].
    destruct (Z.eqb_spec (byteval c) 32) as [Heq|]; [|reflexivity].
    rewrite Heq in Hsp. discriminate.
Qed.


(** *** The loops that carry fuel *)

(** The backward scan stops by itself: once the fuel exceeds the distance
    from [start] down to [lim], more fuel changes nothing. *)
Lemma scanBack_fuel (s : string) (lim : Z) (k : nat) : ∀ (fuel : nat) (start : Z),
  start - lim < Z.of_nat fuel →
  scanBack (fuel + k) s lim start = scanBack fuel s lim start.
Proof.
  induction fuel as [|fuel IH]; intros start Hd.
  - destruct k as [|k]; [reflexivity|]. cbn [Nat.add scanBack].
    destruct (Z.ltb_spec start lim); [reflexivity|lia].
  - cbn [Nat.add scanBack].
    destruct (start <? lim); [reflexivity|].
    destruct (RuneStart _); [reflexivity|]. apply IH. lia.
Qed.

Lemma scanBack_le (s : string) (lim : Z) : ∀ (fuel : nat) (start : Z),
  scanBack fuel s lim start <= start.
Proof.
  induction fuel as [|fuel IH]; intros start; cbn [scanBack]; [lia|].
  destruct (start <? lim); [lia|].
  destruct (RuneStart _); [lia|]. specialize (IH (start - 1)). lia.
Qed.

(** The last rune of a non-empty string is at least one byte wide, so
    the loop of [lastIndexFunc] makes progress. *)
Lemma DecodeLastRune_width (s : string) :
  s ≠ EmptyString → (1 ≤ (DecodeLastRuneInString s).2 ≤ len s)%nat.
Proof.
  intros Hs. unfold DecodeLastRuneInString.
  assert (1 ≤ len s)%nat as Hlen by (destruct s; [congruence|cbn; lia]).
  destruct (Z.eqb_spec (Z.of_nat (len s)) 0); [lia|].
  destruct (_ <? RuneSelf); [cbn [snd]; lia|].
  set (start := Z.max 0 _).
  destruct (DecodeRuneInString _) as [r size] eqn:Hdec.
  destruct (Z.eqb_spec (start + Z.of_nat size) (Z.of_nat (len s)));
    cbn [negb snd]; [|lia].
  pose proof (scanBack_le s (Z.max 0 (Z.of_nat (len s) - UTFMax))
                (Z.to_nat UTFMax) (Z.of_nat (len s) - 1 - 1)).
  subst start. lia.
Qed.

Lemma len_sliceTo (i : nat) (s : string) :
  (i ≤ len s)%nat → len (sliceTo i s) = i.
Proof.
  unfold len. revert s.
  induction i as [|i IH]; intros s Hi; [destruct s; reflexivity|].
  destruct s as [|c s]; cbn [String.length sliceTo] in *; [lia|].
  f_equal. apply IH. lia.
Qed.

(** [lastIndexLoop] never runs out of fuel: with more than [i] turns
    allowed, allowing more changes nothing. *)
Lemma lastIndexLoop_fuel (s : string) (f : Z → bool) (truth : bool) (k : nat) :
  ∀ (fuel i : nat),
    (i < fuel)%nat → (i ≤ len s)%nat →
    lastIndexLoop (fuel + k) s f truth i = lastIndexLoop fuel s f truth i.
Proof.
  induction fuel as [|fuel IH]; intros i Hi Hlen; [lia|].
  cbn [Nat.add lastIndexLoop].
  destruct (Nat.ltb_spec 0 i); [|reflexivity].
  assert (sliceTo i s ≠ EmptyString) as Hne.
  { intros Heq. pose proof (len_sliceTo i s Hlen) as Hl.
    rewrite Heq in Hl. cbn in Hl. lia. }
  pose proof (DecodeLastRune_width _ Hne) as Hw.
  destruct (DecodeLastRuneInString (sliceTo i s)) as [r size].
  cbn [snd] in Hw. destruct (bool_decide _); [reflexivity|].
  apply IH; lia.
Qed.

Lemma lastIndexFunc_fuel (s : string) (f : Z → bool) (truth : bool) (k : nat) :
  lastIndexLoop (S (len s) + k) s f truth (len s) = lastIndexFunc s f truth.
Proof. apply lastIndexLoop_fuel; lia. Qed.

Lemma DecodeLastRune_scan_fuel (s : string) (k : nat) :
  let end_ := Z.of_nat (len s) in
  let lim := Z.max 0 (end_ - UTFMax) in
  scanBack (Z.to_nat UTFMax + k) s lim (end_ - 1 - 1)
  = scanBack (Z.to_nat UTFMax) s lim (end_ - 1 - 1).
Proof. intros end_ lim. apply scanBack_fuel. unfold UTFMax in *. lia. Qed.

Lemma append_cons (a : ascii) (s t : string) :
  String a s +:+ t = String a (s +:+ t).
Proof. reflexivity. Qed.

Section ToLowerFacts.
Context `{CaseTables}.

Lemma Map_cons (mapping : Z → Z) (c : ascii) (s : string) :
  ∃ acc : string,
    Map mapping (String c s) =
      let r := mapping (DecodeRuneInString (String c s)).1 in
      if 0 <=? r then AppendRune r +:+ acc else acc.
Proof.
  unfold Map, range. rewrite rangeFrom_cons. cbn [foldr snd].
  eexists. reflexivity.
Qed.

(** An ASCII first byte is lowered in place, whichever path
    [ToLower] takes. *)
Lemma ToLower_cons_ascii (c : ascii) (s : string) :
  byteval c < 128 →
  ∃ s' : string,
    ToLower (String c s) =
      String (if (65 <=? byteval c) && (byteval c <=? 90)
              then byteof (byteval c + 32) else c) s'.
Proof.
  intros Hc. pose proof (byteval_range c) as Hr. unfold ToLower.
  destruct (isASCII (String c s)).
  - destruct (hasUpper (String c s)) eqn:Hup.
    + eexists. reflexivity.
    + cbn [hasUpper] in Hup. apply orb_false_elim in Hup as [-> _].
      eexists. reflexivity.
  - destruct (Map_cons Unicode.ToLower c s) as [acc ->].
    rewrite DecodeRune_ascii by lia. cbn [fst].
    unfold Unicode.ToLower, Unicode.MaxASCII.
    destruct (Z.leb_spec (byteval c) 127); [|lia].
    destruct ((65 <=? byteval c) && (byteval c <=? 90)) eqn:Hup; cbn zeta.
    * apply andb_prop in Hup as [?%Z.leb_le ?%Z.leb_le].
      destruct (Z.leb_spec 0 (byteval c + 32)); [|lia].
      rewrite AppendRune_ascii by lia. eexists. reflexivity.
    * destruct (Z.leb_spec 0 (byteval c)); [|lia].
      rewrite AppendRune_ascii by lia. rewrite byteof_byteval.
      eexists. reflexivity.
Qed.

Lemma ToLower_startsWith (t : string) :
  Unicode.tablesAvoidBlank →
  startsWith 32 t = false → startsWith 32 (ToLower t) = false.
Proof.
  intros Htab Ht. destruct t as [|c s]; [reflexivity|].
  cbn [startsWith] in Ht. apply Z.eqb_neq in Ht.
  pose proof (byteval_range c) as Hr.
  destruct (Z.lt_ge_cases (byteval c) 128) as [Hlt|Hge].
  - destruct (ToLower_cons_ascii c s Hlt) as [s' ->]. cbn [startsWith].
    apply Z.eqb_neq.
    destruct ((65 <=? byteval c) && (byteval c <=? 90)) eqn:Hup; [|exact Ht].
    apply andb_prop in Hup as [?%Z.leb_le ?%Z.leb_le].
    rewrite byteval_byteof. rewrite Z.mod_small; lia.
  - unfold ToLower. cbn [isASCII]. unfold RuneSelf at 1.
    destruct (Z.ltb_spec (byteval c) 128); [lia|]. cbn [andb].
    destruct (Map_cons Unicode.ToLower c s) as [acc ->].
    pose proof (DecodeRune_nonascii c s Hge) as Hdec. unfold MaxRune in Hdec.
    unfold Unicode.ToLower, Unicode.MaxASCII.
    destruct (Z.leb_spec (DecodeRuneInString (String c s)).1 127); [lia|].
    specialize (Htab (DecodeRuneInString (String c s)).1 ltac:(lia)). cbn zeta.
    destruct (Z.leb_spec 0 (To_LowerCase (DecodeRuneInString (String c s)).1)); [|lia].
    destruct (Z.le_gt_cases (To_LowerCase (DecodeRuneInString (String c s)).1) 127).
    + rewrite AppendRune_ascii by lia. rewrite append_cons. cbn [startsWith].
      rewrite byteval_byteof. apply Z.eqb_neq. rewrite Z.mod_small; lia.
    + destruct (AppendRune_high _ ltac:(split; [eassumption|apply Htab]))
        as (c' & t' & -> & Hc').
      rewrite append_cons. cbn [startsWith]. apply Z.eqb_neq. lia.
Qed.

End ToLowerFacts.

(** *** The models on sample strings *)

Example utf8_examples :
  DecodeRuneInString "€" = (0x20AC, 3%nat)
  ∧ DecodeLastRuneInString "a€" = (0x20AC, 3%nat)
  ∧ range "a€b" = [(0%nat, 97); (1%nat, 0x20AC); (4%nat, 98)]
  ∧ AppendRune 0x20AC = "€"%string
  ∧ DecodeRuneInString (String (byteof 0xC0) (String (byteof 0x80) EmptyString))
    = (RuneError, 1%nat)
  ∧ AppendRune 0xD800 = AppendRune RuneError.
Proof. repeat split; vm_compute; reflexivity. Qed.

Example TrimSpace_examples :
  TrimSpace (String (byteof 9) " P x " +:+ String (byteof 10) EmptyString) = "P x"%string
  ∧ TrimSpace "   " = EmptyString
  ∧ TrimSpace (AppendRune 0x3000 +:+ " É " +:+ AppendRune 0x2003) = "É"%string
  ∧ TrimSpace ("x" +:+ AppendRune 0xA0) = "x"%string
  ∧ TrimSpace ("x " +:+ String (byteof 0xFF) " ")
    = ("x " +:+ String (byteof 0xFF) EmptyString)%string.
Proof. repeat split; vm_compute; reflexivity. Qed.

Example ToLower_examples `{CaseTables} :
  ToLower "GPT-4o" = "gpt-4o"%string
  ∧ ToLower "Claude_Opus.4@[`{" = "claude_opus.4@[`{"%string
  ∧ ToLower EmptyString = EmptyString.
Proof. repeat split; vm_compute; reflexivity. Qed.

End StringFacts.

(** ** The blocked-group index *)

Module QuotaIndexProps.
Import GoTime Auth.

(** Adding whole seconds moves [sec] only, apart from the carry that
    normalises [nsec]. *)
Lemma Add_seconds (t : Time) (k : Z) :
  Add t (k * Second) =
    if 1000000000 <=? nsec t then mkTime (sec t + (k + 1)) (nsec t - 1000000000)
    else if nsec t <? 0 then mkTime (sec t + (k - 1)) (nsec t + 1000000000)
    else mkTime (sec t + k) (nsec t).
Proof.
  unfold Add, Second.
  rewrite Z.quot_mul by lia. rewrite Z.rem_mul by lia.
  rewrite Z.add_0_r. reflexivity.
Qed.

Lemma After_Add_seconds (t : Time) (j k : Z) :
  After (Add t (j * Second)) (Add t (k * Second)) = (k <? j).
Proof.
  rewrite !Add_seconds. unfold After.
  repeat case_match; simpl; lia.
Qed.

Lemma After_trans_seconds (t now : Time) (j k : Z) :
  j <= k → After (Add t (j * Second)) now = true →
  After (Add t (k * Second)) now = true.
Proof.
  rewrite !Add_seconds. unfold After.
  repeat case_match; simpl; lia.
Qed.

(** C1 (amended).  After [setGroupBlocked("g", "m", t+5s, t+60s)] the call
    [isGroupBlocked("g", t+30s)] returns [(false, zero time)] and removes
    the entry, because the retry-after time has passed.  The later
    recover-at time is what the call reports only while retry-after is still
    ahead: for every [now] before [t+5s] it returns [(true, t+60s)] and
    leaves the index as it is (on an index that is not nil, and [t+60s] not
    being the zero time). *)
Theorem recover_at_reported_only_while_retry_pending
    (idx0 : option quotaGroupIndex) (t : Time) :
  let idx := setGroupBlocked "g" "m" (Add t (5 * Second)) (Add t (60 * Second)) idx0 in
  isGroupBlocked "g" (Add t (30 * Second)) idx
    = ((false, zeroTime), clearGroup "g" idx)
  ∧ ∀ now : Time,
      is_Some idx0 →
      After (Add t (5 * Second)) now = true →
      IsZero (Add t (60 * Second)) = false →
      isGroupBlocked "g" now idx = ((true, Add t (60 * Second)), idx).
Proof.
  intros idx. subst idx. split.
  - destruct idx0 as [ix|]; [|reflexivity].
    unfold setGroupBlocked, isGroupBlocked, clearGroup.
    rewrite bool_decide_eq_false_2 by discriminate. cbn [blockedGroups].
    rewrite lookup_insert_eq. cbn [NextRetryAfter].
    rewrite After_Add_seconds. reflexivity.
  - intros now [ix ->] Hretry Hnz.
    unfold setGroupBlocked, isGroupBlocked.
    rewrite bool_decide_eq_false_2 by discriminate. cbn [blockedGroups].
    rewrite lookup_insert_eq. cbn [NextRetryAfter NextRecoverAt].
    rewrite Hretry, Hnz.
    rewrite (After_trans_seconds t now 5 60) by (lia || assumption).
    rewrite After_Add_seconds. reflexivity.
Qed.

(** C5.  For every group, source model, pair of timestamps and [now]:
    [setGroupBlocked] followed by [clearGroup] on the same group makes
    [isGroupBlocked] return [(false, zero time)], on every index, nil or
    not. *)
Theorem clear_after_set_unblocks
    (idx0 : option quotaGroupIndex) (g m : string)
    (nextRetry nextRecover now : Time) :
  (isGroupBlocked g now
     (clearGroup g (setGroupBlocked g m nextRetry nextRecover idx0))).1
  = (false, zeroTime).
Proof.
  destruct idx0 as [[bg]|]; [|reflexivity].
  unfold setGroupBlocked, clearGroup, isGroupBlocked.
  destruct (decide (g = EmptyString)) as [->|Hg].
  - rewrite bool_decide_eq_true_2 by reflexivity.
    cbn [blockedGroups]. destruct bg; reflexivity.
  - rewrite (bool_decide_eq_false_2 _ Hg). cbn [blockedGroups].
    rewrite lookup_delete_eq. reflexivity.
Qed.

End QuotaIndexProps.

(** ** The resolver registry *)

Module RegistryProps.
Import GoBytes Utf8 Strings Auth StringFacts.

Section WithCaseTables.
Context `{CaseTables}.

Lemma registryAfter_snoc calls p r :
  registryAfter (calls ++ [(p, r)]) =
    RegisterQuotaGroupResolver p r (registryAfter calls).
Proof. unfold registryAfter. rewrite foldl_snoc. reflexivity. Qed.

(** A registration is effective when the normalised name is not empty
    and the resolver is not [nil]. *)
Lemma Register_effective p f reg :
  ToLower (TrimSpace p) ≠ EmptyString →
  RegisterQuotaGroupResolver p (Some f) reg =
    mkRegistry (<[ToLower (TrimSpace p) := Some f]> (quotaGroupResolvers reg))
               ({[ToLower (TrimSpace p)]} ∪ quotaGroupProviders reg).
Proof.
  intros Hne. unfold RegisterQuotaGroupResolver.
  rewrite bool_decide_eq_false_2 by exact Hne.
  rewrite bool_decide_eq_false_2 by discriminate. reflexivity.
Qed.

Lemma Register_ignored p r reg :
  ToLower (TrimSpace p) = EmptyString ∨ r = None →
  RegisterQuotaGroupResolver p r reg = reg.
Proof.
  intros Hor. unfold RegisterQuotaGroupResolver.
  destruct Hor as [Hp| ->].
  - rewrite (bool_decide_eq_true_2 _ Hp). reflexivity.
  - rewrite (bool_decide_eq_true_2 (None = None)) by reflexivity.
    rewrite orb_true_r. reflexivity.
Qed.

Lemma Register_cases p r reg :
  (RegisterQuotaGroupResolver p r reg = reg
   ∧ (ToLower (TrimSpace p) = EmptyString ∨ r = None))
  ∨ (∃ f, r = Some f ∧ ToLower (TrimSpace p) ≠ EmptyString
          ∧ RegisterQuotaGroupResolver p r reg =
              mkRegistry (<[ToLower (TrimSpace p) := Some f]> (quotaGroupResolvers reg))
                         ({[ToLower (TrimSpace p)]} ∪ quotaGroupProviders reg)).
Proof.
  destruct (decide (ToLower (TrimSpace p) = EmptyString)) as [He|Hne].
  - left. split; [apply Register_ignored|]; auto.
  - destruct r as [f|].
    + right. exists f. auto using Register_effective.
    + left. split; [apply Register_ignored|]; auto.
Qed.

(** The fast-lookup set holds exactly the keys of the resolver map. *)
Lemma registryAfter_dom calls :
  dom (quotaGroupResolvers (registryAfter calls))
    = quotaGroupProviders (registryAfter calls).
Proof.
  induction calls as [|[p r] calls IH] using rev_ind.
  - cbn. apply dom_empty_L.
  - rewrite registryAfter_snoc.
    destruct (Register_cases p r (registryAfter calls))
      as [[-> _]|(f & -> & Hne & ->)]; [exact IH|].
    cbn [quotaGroupResolvers quotaGroupProviders].
    rewrite dom_insert_L, IH. reflexivity.
Qed.

(** The registry after package initialisation. *)
Lemma init_registry : init emptyRegistry = registryAfter [initCall].
Proof. reflexivity. Qed.

(** Every key was put there by a call, under its normalised name. *)
Lemma registryAfter_providers calls k :
  k ∈ quotaGroupProviders (registryAfter calls) ↔
  ∃ p f, (p, Some f) ∈ calls ∧ ToLower (TrimSpace p) = k ∧ k ≠ EmptyString.
Proof.
  induction calls as [|[p r] calls IH] using rev_ind.
  - cbn. split; [set_solver|]. intros (p & f & Hin & _). inversion Hin.
  - rewrite registryAfter_snoc.
    destruct (Register_cases p r (registryAfter calls))
      as [[-> Hign]|(f & -> & Hne & ->)].
    + rewrite IH. split.
      * intros (p' & f' & Hin & Hk). exists p', f'. split; [|exact Hk].
        apply elem_of_app. left. exact Hin.
      * intros (p' & f' & Hin & Hk & Hk'). apply elem_of_app in Hin as [Hin|Hin].
        { exists p', f'. auto. }
        apply list_elem_of_singleton in Hin. inversion Hin; subst.
        destruct Hign as [?|?]; congruence.
    + cbn [quotaGroupProviders]. rewrite elem_of_union, elem_of_singleton, IH.
      split.
      * intros [->|(p' & f' & Hin & Hk)].
        { exists p, f. split; [|auto]. apply elem_of_app. right.
          apply list_elem_of_singleton. reflexivity. }
        exists p', f'. split; [|exact Hk]. apply elem_of_app. left. exact Hin.
      * intros (p' & f' & Hin & Hk & Hk'). apply elem_of_app in Hin as [Hin|Hin].
        { right. exists p', f'. auto. }
        apply list_elem_of_singleton in Hin. inversion Hin; subst. left. reflexivity.
Qed.

Lemma registryAfter_lookup_None calls k :
  k ∉ quotaGroupProviders (registryAfter calls) →
  quotaGroupResolvers (registryAfter calls) !! k = None.
Proof.
  rewrite <- registryAfter_dom. apply not_elem_of_dom.
Qed.

(** No key starts with a blank. *)
Lemma registryAfter_no_leading_blank calls k :
  Unicode.tablesAvoidBlank →
  k ∈ quotaGroupProviders (registryAfter calls) → startsWith 32 k = false.
Proof.
  intros Htab (p & f & _ & <- & _)%registryAfter_providers.
  apply ToLower_startsWith, TrimSpace_startsWith. exact Htab.
Qed.

(** C7 (amended).  For every history of registrations and every
    provider name whose lower-cased form differs from the trimmed,
    lower-cased form of every name passed to
    [RegisterQuotaGroupResolver], [HasQuotaGrouping] returns false and
    [ResolveQuotaGroup] returns the empty string for every model. *)
Theorem unregistered_provider_has_no_group
    (calls : list (string * QuotaGroupResolver)) (provider model : string) :
  (∀ p r, (p, r) ∈ calls → ToLower (TrimSpace p) ≠ ToLower provider) →
  HasQuotaGrouping provider (registryAfter calls) = false
  ∧ ResolveQuotaGroup provider model (registryAfter calls) = EmptyString.
Proof.
  intros Hnever.
  assert (ToLower provider ∉ quotaGroupProviders (registryAfter calls)) as Hnot.
  { intros (p & f & Hin & Heq & _)%registryAfter_providers.
    exact (Hnever _ _ Hin Heq). }
  split.
  - unfold HasQuotaGrouping. apply bool_decide_eq_false_2. exact Hnot.
  - unfold ResolveQuotaGroup.
    rewrite (registryAfter_lookup_None _ _ Hnot).
    destruct (_ || _); reflexivity.
Qed.

(** C9.  Registration stores a resolver under the trimmed and
    lower-cased name, while both lookups lower-case only: a lookup name
    finds a registration exactly when its lower-cased form equals the
    trimmed, lower-cased registered name.  So after
    [RegisterQuotaGroupResolver(" P ", r)], in every history, ["p"] is
    found by both lookups, and [" p "] is found by neither. *)
Theorem lookup_does_not_trim
    (calls : list (string * QuotaGroupResolver))
    (r : string → string → string) (m : string) :
  Unicode.tablesAvoidBlank →
  let reg := RegisterQuotaGroupResolver " P " (Some r) (registryAfter calls) in
  (∀ (p q : string) (f : string → string → string) (reg0 : registry),
     ToLower (TrimSpace p) ≠ EmptyString →
     (HasQuotaGrouping q (RegisterQuotaGroupResolver p (Some f) reg0) = true
      ↔ ToLower q = ToLower (TrimSpace p) ∨ HasQuotaGrouping q reg0 = true)
     ∧ ∀ m' : string,
         q ≠ EmptyString → m' ≠ EmptyString →
         ToLower q = ToLower (TrimSpace p) →
         ResolveQuotaGroup q m' (RegisterQuotaGroupResolver p (Some f) reg0)
         = f (ToLower q) m')
  ∧ HasQuotaGrouping "p" reg = true
  ∧ (m ≠ EmptyString → ResolveQuotaGroup "p" m reg = r "p" m)
  ∧ HasQuotaGrouping " p " reg = false
  ∧ ResolveQuotaGroup " p " m reg = EmptyString.
Proof.
  intros Htab reg.
  assert (Hreg : reg = mkRegistry
            (<["p"%string := Some r]> (quotaGroupResolvers (registryAfter calls)))
            ({["p"%string]} ∪ quotaGroupProviders (registryAfter calls))).
  { subst reg. rewrite Register_effective; [reflexivity|discriminate]. }
  assert (Hblank : (" p "%string) ∉ quotaGroupProviders (registryAfter calls)).
  { intros Hin%registryAfter_no_leading_blank; [discriminate|exact Htab]. }
  split; [|split; [|split; [|split]]].
  - intros p q f reg0 Hne. rewrite Register_effective by exact Hne. split.
    + unfold HasQuotaGrouping. cbn [quotaGroupProviders].
      rewrite !bool_decide_eq_true, elem_of_union, elem_of_singleton.
      reflexivity.
    + intros m' Hq Hm' Hkey. unfold ResolveQuotaGroup.
      cbn [quotaGroupResolvers].
      rewrite (bool_decide_eq_false_2 _ Hq), (bool_decide_eq_false_2 _ Hm').
      rewrite Hkey, lookup_insert_eq. reflexivity.
  - rewrite Hreg. unfold HasQuotaGrouping. cbn [quotaGroupProviders].
    apply bool_decide_eq_true_2. apply elem_of_union. left.
    apply elem_of_singleton. reflexivity.
  - intros Hm. rewrite Hreg. unfold ResolveQuotaGroup.
    cbn [quotaGroupResolvers].
    rewrite (bool_decide_eq_false_2 (m = EmptyString)) by exact Hm.
    change (ToLower "p") with "p"%string.
    rewrite lookup_insert_eq. reflexivity.
  - rewrite Hreg. unfold HasQuotaGrouping. cbn [quotaGroupProviders].
    apply bool_decide_eq_false_2.
    change (ToLower " p ") with " p "%string.
    rewrite elem_of_union, elem_of_singleton.
    intros [Heq|Hin]; [discriminate|exact (Hblank Hin)].
  - rewrite Hreg. unfold ResolveQuotaGroup. cbn [quotaGroupResolvers].
    change (ToLower " p ") with " p "%string.
    rewrite lookup_insert_ne by discriminate.
    rewrite (registryAfter_lookup_None _ _ Hblank).
    destruct (_ || _); reflexivity.
Qed.

End WithCaseTables.
End RegistryProps.

(** ** The family resolver *)

Module ResolverProps.
Import GoBytes Utf8 Strings Auth StringFacts.

Section WithCaseTables.
Context `{CaseTables}.

(** C6.  Whatever the provider and the case tables, the family
    resolver returns "claude" for "claude-opus-4-5-thinking", "gemini"
    for "gemini-2.5-pro", "gpt" for "gpt-4o", "o1" for "o1" and the empty
    string for the empty string. *)
Theorem family_resolver_examples (provider : string) :
  AntigravityQuotaGroupResolver provider "claude-opus-4-5-thinking" = "claude"%string
  ∧ AntigravityQuotaGroupResolver provider "gemini-2.5-pro" = "gemini"%string
  ∧ AntigravityQuotaGroupResolver provider "gpt-4o" = "gpt"%string
  ∧ AntigravityQuotaGroupResolver provider "o1" = "o1"%string
  ∧ AntigravityQuotaGroupResolver provider EmptyString = EmptyString.
Proof. repeat split; vm_compute; reflexivity. Qed.

Lemma isDelimiter_ascii (b : Z) :
  isDelimiter b = true → b < 128 ∧ (65 <=? b) && (b <=? 90) = false.
Proof.
  unfold isDelimiter. intros Hd.
  repeat (apply orb_prop in Hd as [Hd|Hd]); apply Z.eqb_eq in Hd; subst;
    split; (lia || reflexivity).
Qed.

(** The examples in the comment of [extractModelFamily]. *)
Example extractModelFamily_examples :
  extractModelFamily "claude-opus-4-5-thinking" = "claude"%string
  ∧ extractModelFamily "claude-sonnet-4" = "claude"%string
  ∧ extractModelFamily "gemini-2.5-pro" = "gemini"%string
  ∧ extractModelFamily "gpt-4o" = "gpt"%string
  ∧ extractModelFamily "GPT_4" = "gpt"%string.
Proof. repeat split; vm_compute; reflexivity. Qed.

(** C2 (amended).  For every model identifier that starts with one of
    the delimiters, the family resolver returns the empty string, which
    is not the lower-cased identifier. *)
Theorem leading_delimiter_gives_no_family (provider model : string) :
  startsWithDelimiter model = true →
  AntigravityQuotaGroupResolver provider model = EmptyString
  ∧ AntigravityQuotaGroupResolver provider model ≠ ToLower model.
Proof.
  destruct model as [|c s]; [discriminate|]. cbn [startsWithDelimiter].
  intros Hd. destruct (isDelimiter_ascii _ Hd) as [Hlt Hup].
  destruct (ToLower_cons_ascii c s Hlt) as [s' Hlow]. rewrite Hup in Hlow.
  assert (AntigravityQuotaGroupResolver provider (String c s) = EmptyString) as Hres.
  { unfold AntigravityQuotaGroupResolver, extractModelFamily.
    rewrite bool_decide_eq_false_2 by discriminate.
    rewrite Hlow. unfold range. rewrite rangeFrom_cons.
    rewrite DecodeRune_ascii by exact Hlt. cbn [list_find fst snd].
    rewrite decide_True by exact Hd. reflexivity. }
  split; [exact Hres|]. rewrite Hres, Hlow. discriminate.
Qed.
End WithCaseTables.
End ResolverProps.

(** ** The token cache *)

Module TokenCacheProps.
Import GoBytes Util.

Implicit Types (sh : tokenCacheShard) (es : list tokenCacheEntry)
  (tc : TokenCache) (h t : Z).

(** [hashContent] on the test vectors of the 64-bit FNV-1a hash. *)
Example hashContent_vectors :
  hashContent EmptyString = 0xcbf29ce484222325
  ∧ hashContent "a" = 0xaf63dc4c8601ec8c
  ∧ hashContent "ab" = 0x089c4407b545986a
  ∧ hashContent "abc" = 0xe71fa2190541574b
  ∧ hashContent "foobar" = 0x85944171f73967e8.
Proof. repeat split; vm_compute; reflexivity. Qed.

(** *** One shard *)

Lemma find_hash_None h es :
  list_find (λ e, hash e = h) es = None ↔ h ∉ hash <$> es.
Proof.
  rewrite list_find_None, Forall_forall, list_elem_of_fmap. split.
  - intros Hall (e & -> & Hin). exact (Hall e Hin eq_refl).
  - intros Hnot e Hin Heq. apply Hnot. exists e. auto.
Qed.

Lemma shardSet_update h t sh i e :
  list_find (λ e, hash e = h) (entries sh) = Some (i, e) →
  shardSet h t sh = mkShard (<[i := mkEntry h t]> (entries sh)).
Proof.
  intros Hfind. unfold shardSet. rewrite Hfind.
  apply list_find_Some in Hfind as (_ & -> & _). reflexivity.
Qed.

Lemma shardSet_append h t sh :
  h ∉ hash <$> entries sh →
  shardSet h t sh =
    mkShard ((if decide (maxEntriesPerShard ≤ length (entries sh))%nat
              then drop 1 (entries sh) else entries sh) ++ [mkEntry h t]).
Proof.
  intros Hnot%find_hash_None. unfold shardSet. rewrite Hnot. reflexivity.
Qed.

Lemma hashes_update es i e t :
  es !! i = Some e → hash <$> <[i := mkEntry (hash e) t]> es = hash <$> es.
Proof.
  intros Hi. rewrite list_fmap_insert. cbn [hash].
  apply list_insert_id. rewrite list_lookup_fmap, Hi. reflexivity.
Qed.

(** With distinct hashes any entry that carries the hash is the one the
    loop stops at. *)
Lemma find_hash_NoDup h es i e :
  NoDup (hash <$> es) → es !! i = Some e → hash e = h →
  list_find (λ e, hash e = h) es = Some (i, e).
Proof.
  intros Hnd Hi Hh. apply list_find_Some. repeat split; [exact Hi|exact Hh|].
  intros j y Hj Hlt Hy.
  assert (j = i); [|lia].
  apply (NoDup_lookup _ _ _ h Hnd); rewrite list_lookup_fmap.
  - rewrite Hj. cbn. congruence.
  - rewrite Hi. cbn. congruence.
Qed.

Lemma shardGet_shardSet h t sh : shardGet h (shardSet h t sh) = (t, true).
Proof.
  unfold shardGet.
  destruct (list_find (λ e, hash e = h) (entries sh)) as [[i e]|] eqn:Hfind.
  - rewrite (shardSet_update _ _ _ _ _ Hfind). cbn [entries].
    apply list_find_Some in Hfind as (Hi & Hh & Hbefore).
    assert (list_find (λ e, hash e = h) (<[i := mkEntry h t]> (entries sh))
            = Some (i, mkEntry h t)) as ->; [|reflexivity].
    apply list_find_Some. repeat split.
    + apply list_lookup_insert_eq. eapply lookup_lt_Some, Hi.
    + intros j y Hj Hlt. rewrite list_lookup_insert_ne in Hj by lia.
      eapply Hbefore; eassumption.
  - apply find_hash_None in Hfind. rewrite (shardSet_append _ _ _ Hfind).
    cbn [entries].
    set (es' := if decide _ then _ else _).
    assert (Hnot : h ∉ hash <$> es').
    { intros Hin. apply Hfind. subst es'. destruct (decide _); [|exact Hin].
      rewrite fmap_drop in Hin. eapply subseteq_drop, Hin. }
    assert (list_find (λ e, hash e = h) (es' ++ [mkEntry h t])
            = Some (length es', mkEntry h t)) as ->; [|reflexivity].
    apply list_find_Some. repeat split.
    + rewrite lookup_app_r, Nat.sub_diag by lia. reflexivity.
    + intros j y Hj Hlt Hy. rewrite lookup_app_l in Hj by lia.
      apply Hnot, list_elem_of_fmap. exists y. split; [auto|].
      eapply list_elem_of_lookup_2, Hj.
Qed.

(** [shardSet] keeps a shard within its capacity and its hashes
    distinct. *)
Lemma shardSet_ok h t sh : shardOk sh → shardOk (shardSet h t sh).
Proof.
  intros [Hlen Hnd]. unfold shardOk in *.
  destruct (list_find (λ e, hash e = h) (entries sh)) as [[i e]|] eqn:Hfind.
  - unfold shardSet. rewrite Hfind. cbn [entries].
    apply list_find_Some in Hfind as (Hi & _ & _).
    rewrite length_insert, hashes_update by exact Hi. auto.
  - apply find_hash_None in Hfind. rewrite (shardSet_append _ _ _ Hfind).
    cbn [entries]. unfold maxEntriesPerShard in *.
    rewrite length_app, fmap_app. cbn [length fmap list_fmap].
    destruct (decide _) as [Hfull|Hroom].
    + rewrite length_drop. split; [lia|].
      apply NoDup_app. repeat split.
      * rewrite fmap_drop. eapply sublist_NoDup; [exact Hnd|apply sublist_drop].
      * intros x Hx ->%list_elem_of_singleton. apply Hfind.
        rewrite fmap_drop in Hx. eapply subseteq_drop, Hx.
      * apply NoDup_singleton.
    + split; [lia|].
      apply NoDup_app. repeat split; [exact Hnd| |apply NoDup_singleton].
      intros x Hx ->%list_elem_of_singleton. exact (Hfind Hx).
Qed.

Lemma filter_hash_absent h es :
  h ∉ hash <$> es → filter (λ e, hash e = h) es = [].
Proof.
  induction es as [|e es IH]; [reflexivity|]. cbn [fmap list_fmap].
  intros Hnot. apply not_elem_of_cons in Hnot as [Hne Hnot].
  rewrite filter_cons_False by congruence. auto.
Qed.

Lemma count_hash_NoDup h es :
  NoDup (hash <$> es) → h ∈ hash <$> es →
  length (filter (λ e, hash e = h) es) = 1%nat.
Proof.
  induction es as [|e es IH]; cbn [fmap list_fmap]; intros Hnd Hin.
  - inversion Hin.
  - apply NoDup_cons in Hnd as [Hhd Hnd]. rewrite filter_cons.
    destruct (decide (hash e = h)) as [Heq|Hne].
    + rewrite filter_hash_absent by congruence. reflexivity.
    + apply elem_of_cons in Hin as [Heq|Hin]; [congruence|]. auto.
Qed.


(** *** The cache *)

Lemma shardOf_lt h : (shardOf h < Z.to_nat numShards)%nat.
Proof.
  unfold shardOf, numShards.
  pose proof (Z.mod_pos_bound h 16 ltac:(lia)). lia.
Qed.

Lemma NewTokenCache_ok : cacheOk NewTokenCache.
Proof.
  split; [apply length_replicate|].
  apply Forall_replicate. split; [cbn; lia|constructor].
Qed.

Lemma cacheOk_lookup tc h :
  cacheOk tc → ∃ sh, shards tc !! shardOf h = Some sh ∧ shardOk sh.
Proof.
  intros [Hlen Hall].
  destruct (lookup_lt_is_Some_2 (shards tc) (shardOf h)) as [sh Hsh].
  { rewrite Hlen. apply shardOf_lt. }
  exists sh. split; [exact Hsh|].
  eapply Forall_lookup_1; eassumption.
Qed.

Lemma Set_shards tc c t sh :
  shards tc !! shardOf (hashContent c) = Some sh →
  shards (TokenCache_Set tc c t) =
    <[shardOf (hashContent c) := shardSet (hashContent c) t sh]> (shards tc).
Proof. intros Hsh. unfold TokenCache_Set. rewrite Hsh. reflexivity. Qed.

Lemma Get_shard tc c sh :
  shards tc !! shardOf (hashContent c) = Some sh →
  TokenCache_Get tc c = shardGet (hashContent c) sh.
Proof. intros Hsh. unfold TokenCache_Get. rewrite Hsh. reflexivity. Qed.

Lemma Set_ok tc c t : cacheOk tc → cacheOk (TokenCache_Set tc c t).
Proof.
  intros Hok. destruct (cacheOk_lookup tc (hashContent c) Hok) as (sh & Hsh & Hshok).
  destruct Hok as [Hlen Hall]. split.
  - rewrite (Set_shards _ _ _ _ Hsh), length_insert. exact Hlen.
  - rewrite (Set_shards _ _ _ _ Hsh). apply Forall_insert; [exact Hall|].
    apply shardSet_ok, Hshok.
Qed.

Lemma runSets_cons tc call ops :
  runSets tc (call :: ops) = runSets (TokenCache_Set tc call.1 call.2) ops.
Proof. reflexivity. Qed.

Lemma runSets_ok ops : ∀ tc, cacheOk tc → cacheOk (runSets tc ops).
Proof.
  induction ops as [|call ops IH]; intros tc Hok; [exact Hok|].
  rewrite runSets_cons. apply IH, Set_ok, Hok.
Qed.

Lemma reachable_ok ops : cacheOk (runSets NewTokenCache ops).
Proof. apply runSets_ok, NewTokenCache_ok. Qed.

Lemma Get_miss tc c sh :
  shards tc !! shardOf (hashContent c) = Some sh →
  TokenCache_Get tc c = (0, false) → hashContent c ∉ hash <$> entries sh.
Proof.
  intros Hsh. rewrite (Get_shard _ _ _ Hsh). unfold shardGet.
  destruct (list_find _ _) as [[i e]|] eqn:Hfind; [discriminate|].
  intros _. apply find_hash_None, Hfind.
Qed.

(** C4.  On every cache that a sequence of [Set] calls has built,
    [Set(c, t1); Set(c, t2); Get(c)] returns [(t2, true)], and the shard
    of [c] then holds exactly one entry with the hash of [c]. *)
Theorem set_twice_keeps_one_entry (ops : list (string * Z)) (c : string) (t1 t2 : Z) :
  let tc := runSets NewTokenCache ops in
  let tc2 := TokenCache_Set (TokenCache_Set tc c t1) c t2 in
  TokenCache_Get tc2 c = (t2, true)
  ∧ ∃ sh, shards tc2 !! shardOf (hashContent c) = Some sh
          ∧ length (filter (λ e, hash e = hashContent c) (entries sh)) = 1%nat.
Proof.
  intros tc tc2.
  assert (Hok1 : cacheOk (TokenCache_Set tc c t1)) by apply Set_ok, reachable_ok.
  destruct (cacheOk_lookup _ (hashContent c) Hok1) as (sh1 & Hsh1 & Hsh1ok).
  assert (Hsh2 : shards tc2 !! shardOf (hashContent c)
                 = Some (shardSet (hashContent c) t2 sh1)).
  { subst tc2. rewrite (Set_shards _ _ _ _ Hsh1).
    apply list_lookup_insert_eq. eapply lookup_lt_Some, Hsh1. }
  split.
  - rewrite (Get_shard _ _ _ Hsh2). apply shardGet_shardSet.
  - eexists. split; [exact Hsh2|].
    destruct (shardSet_ok (hashContent c) t2 sh1 Hsh1ok) as [_ Hnd].
    apply count_hash_NoDup; [exact Hnd|].
    pose proof (shardGet_shardSet (hashContent c) t2 sh1) as Hget.
    unfold shardGet in Hget.
    destruct (list_find _ _) as [[i e]|] eqn:Hfind; [|discriminate].
    apply list_find_Some in Hfind as (Hi & Hh & _).
    apply list_elem_of_fmap. exists e. split; [auto|].
    eapply list_elem_of_lookup_2, Hi.
Qed.


(** *** Eviction order *)

Lemma lastN_short {A} (n : nat) (l : list A) :
  (length l ≤ n)%nat → lastN n l = l.
Proof. intros Hl. unfold lastN. replace (length l - n)%nat with 0%nat by lia. reflexivity. Qed.

(** Appending one entry to at most [n] retained entries and cutting
    back to [n] is [lastN] of the longer sequence. *)
Lemma lastN_step (e : tokenCacheEntry) es (k : list tokenCacheEntry) :
  (length es ≤ maxEntriesPerShard)%nat →
  lastN maxEntriesPerShard
    ((if decide (maxEntriesPerShard ≤ length es)%nat then drop 1 es else es)
       ++ [e] ++ k)
  = lastN maxEntriesPerShard (es ++ e :: k).
Proof.
  intros Hlen. destruct (decide _) as [Hfull|Hroom]; [|reflexivity].
  unfold lastN, maxEntriesPerShard in *.
  destruct es as [|e0 es]; [cbn in Hfull; lia|].
  change (drop 1 (e0 :: es)) with es.
  rewrite !length_app. cbn [length app] in *.
  replace (S (length es) + S (length k) - 64)%nat
    with (S (length es + (1 + length k) - 64))%nat by lia.
  reflexivity.
Qed.

(** Calls for contents that are new to a shard and hash to distinct
    values leave the shard with the 64 most recent of its old entries
    followed by the new ones. *)
Lemma runSets_fresh (k : nat) (cs : list (string * Z)) : ∀ tc sh,
  cacheOk tc →
  shards tc !! k = Some sh →
  Forall (λ call, shardOf (hashContent call.1) = k) cs →
  NoDup (hashContent <$> cs.*1) →
  Forall (λ call, hashContent call.1 ∉ hash <$> entries sh) cs →
  shards (runSets tc cs) =
    <[k := mkShard (lastN maxEntriesPerShard (entries sh ++ (newEntry <$> cs)))]>
      (shards tc).
Proof.
  induction cs as [|[c t] cs IH]; intros tc sh Hok Hsh Hroute Hnd Hfresh.
  - cbn [runSets foldl fmap list_fmap]. rewrite app_nil_r.
    assert (shardOk sh) as [Hlen _].
    { destruct Hok as [_ Hall]. eapply Forall_lookup_1; eassumption. }
    rewrite lastN_short by exact Hlen.
    destruct sh. symmetry. apply list_insert_id. exact Hsh.
  - rewrite runSets_cons. cbn [fst snd].
    apply Forall_cons in Hroute as [Hk Hroute]. cbn [fst] in Hk. subst k.
    apply Forall_cons in Hfresh as [Hc Hfresh]. cbn [fst] in Hc.
    cbn [fmap list_fmap fst] in Hnd. apply NoDup_cons in Hnd as [Hcnew Hnd].
    assert (shardOk sh) as [Hlen _].
    { destruct Hok as [_ Hall]. eapply Forall_lookup_1; eassumption. }
    assert (Hsh1 : shards (TokenCache_Set tc c t) !! shardOf (hashContent c)
                   = Some (shardSet (hashContent c) t sh)).
    { rewrite (Set_shards _ _ _ _ Hsh).
      apply list_lookup_insert_eq. eapply lookup_lt_Some, Hsh. }
    rewrite (IH _ _ (Set_ok _ c t Hok) Hsh1 Hroute Hnd).
    + rewrite (Set_shards _ _ _ _ Hsh), list_insert_insert_eq.
      rewrite (shardSet_append _ _ _ Hc). cbn [entries].
      rewrite <- app_assoc.
      change (newEntry <$> (c, t) :: cs) with (newEntry (c, t) :: (newEntry <$> cs)).
      change ([mkEntry (hashContent c) t]) with [newEntry (c, t)].
      rewrite (lastN_step (newEntry (c, t)) (entries sh) (newEntry <$> cs) Hlen).
      reflexivity.
    + rewrite (shardSet_append _ _ _ Hc). cbn [entries].
      apply Forall_forall. intros [c' t'] Hin. cbn [fst].
      rewrite fmap_app. cbn [fmap list_fmap hash]. intros Hin'.
      apply elem_of_app in Hin' as [Hold|Hnew].
      * rewrite Forall_forall in Hfresh. apply (Hfresh _ Hin). cbn [fst].
        destruct (decide _); [|exact Hold].
        rewrite fmap_drop in Hold. eapply subseteq_drop, Hold.
      * apply list_elem_of_singleton in Hnew. apply Hcnew. rewrite <- Hnew.
        apply list_elem_of_fmap. exists c'. split; [reflexivity|].
        apply list_elem_of_fmap. exists (c', t'). auto.
Qed.

Lemma hashes_newEntry (cs : list (string * Z)) :
  hash <$> (newEntry <$> cs) = hashContent <$> cs.*1.
Proof. rewrite <- !list_fmap_compose. reflexivity. Qed.


Lemma lastN_exact {A} (n : nat) (l k : list A) (x : A) :
  length k = n → lastN n (l ++ x :: k) = k.
Proof.
  intros Hk. unfold lastN.
  replace (l ++ x :: k) with ((l ++ [x]) ++ k) by (rewrite <- app_assoc; reflexivity).
  apply drop_app_length'. rewrite !length_app. cbn [length]. lia.
Qed.

Lemma shardGet_absent h sh :
  h ∉ hash <$> entries sh → shardGet h sh = (0, false).
Proof. intros Hnot%find_hash_None. unfold shardGet. rewrite Hnot. reflexivity. Qed.

(** C3.  After every sequence of [Set] calls every shard holds at most
    [maxEntriesPerShard] entries.  A [Set] of a hash that is not in a full
    shard drops the front entry of that shard and appends the new one at
    the back.  Hence 65 calls with pairwise distinct hashes that all go to
    one shard, for contents not yet cached, leave the first content absent
    from [Get] and the 64 later ones present with their token counts. *)
Theorem shard_bounded_fifo :
  (∀ (ops : list (string * Z)) (i : nat) (sh : tokenCacheShard),
     shards (runSets NewTokenCache ops) !! i = Some sh →
     (length (entries sh) ≤ maxEntriesPerShard)%nat)
  ∧ (∀ (ops : list (string * Z)) (c : string) (t : Z) (sh : tokenCacheShard),
       let tc := runSets NewTokenCache ops in
       shards tc !! shardOf (hashContent c) = Some sh →
       length (entries sh) = maxEntriesPerShard →
       TokenCache_Get tc c = (0, false) →
       shards (TokenCache_Set tc c t) =
         <[shardOf (hashContent c) :=
             mkShard (drop 1 (entries sh) ++ [mkEntry (hashContent c) t])]>
           (shards tc))
  ∧ (∀ (ops : list (string * Z)) (first : string * Z)
       (rest : list (string * Z)) (k : nat),
       let tc := runSets NewTokenCache ops in
       let tc' := runSets tc (first :: rest) in
       length rest = maxEntriesPerShard →
       Forall (λ call, shardOf (hashContent call.1) = k) (first :: rest) →
       NoDup (hashContent <$> (first :: rest).*1) →
       Forall (λ call, TokenCache_Get tc call.1 = (0, false)) (first :: rest) →
       TokenCache_Get tc' first.1 = (0, false)
       ∧ Forall (λ call, TokenCache_Get tc' call.1 = (call.2, true)) rest).
Proof.
  split; [|split].
  - intros ops i sh Hsh. destruct (reachable_ok ops) as [_ Hall].
    eapply (Forall_lookup_1 shardOk) in Hall as [Hlen _]; [exact Hlen|exact Hsh].
  - intros ops c t sh tc Hsh Hfull Hmiss.
    rewrite (Set_shards _ _ _ _ Hsh).
    rewrite (shardSet_append _ _ _ (Get_miss _ _ _ Hsh Hmiss)).
    rewrite decide_True by lia. reflexivity.
  - intros ops first rest k tc tc' Hlen Hroute Hnd Hmiss.
    assert (Hok : cacheOk tc) by apply reachable_ok.
    pose proof Hroute as Hroute'.
    apply Forall_cons in Hroute' as [Hk Hrest].
    destruct (cacheOk_lookup tc (hashContent first.1) Hok) as (sh & Hsh & Hshok).
    rewrite Hk in Hsh.
    assert (Hfresh : Forall (λ call, hashContent call.1 ∉ hash <$> entries sh)
                       (first :: rest)).
    { apply Forall_forall. intros call Hin.
      rewrite Forall_forall in Hroute, Hmiss.
      apply (Get_miss tc); [rewrite (Hroute _ Hin); exact Hsh|exact (Hmiss _ Hin)]. }
    assert (Hsh' : shards tc' !! k = Some (mkShard (newEntry <$> rest))).
    { subst tc'. rewrite (runSets_fresh k _ _ _ Hok Hsh Hroute Hnd Hfresh).
      change (newEntry <$> first :: rest) with (newEntry first :: (newEntry <$> rest)).
      rewrite lastN_exact by (rewrite length_fmap; exact Hlen).
      apply list_lookup_insert_eq. eapply lookup_lt_Some, Hsh. }
    cbn [fmap list_fmap] in Hnd. apply NoDup_cons in Hnd as [Hfirst Hnd].
    split.
    + rewrite (Get_shard tc' _ (mkShard (newEntry <$> rest)))
        by (rewrite Hk; exact Hsh').
      apply shardGet_absent. cbn [entries]. rewrite hashes_newEntry. exact Hfirst.
    + apply Forall_forall. intros call Hin.
      rewrite Forall_forall in Hrest.
      rewrite (Get_shard tc' _ (mkShard (newEntry <$> rest)))
        by (rewrite (Hrest _ Hin); exact Hsh').
      apply list_elem_of_lookup_1 in Hin as [i Hi].
      unfold shardGet. cbn [entries].
      rewrite (find_hash_NoDup (hashContent call.1) (newEntry <$> rest) i (newEntry call)).
      * reflexivity.
      * rewrite hashes_newEntry. exact Hnd.
      * rewrite list_lookup_fmap, Hi. reflexivity.
      * reflexivity.
Qed.

(** C10.  When [Set] meets an entry with the hash of the content, the
    shard afterwards is the old shard with the token count overwritten at
    the index of that entry: same length, same order, nothing evicted even
    in a full shard, and every other shard untouched.  So when that entry
    is the front of a full shard, the next [Set] of a new hash in this shard
    evicts the entry that was just refreshed. *)
Theorem refresh_keeps_position
    (ops : list (string * Z)) (c : string) (t : Z)
    (sh : tokenCacheShard) (i : nat) (e : tokenCacheEntry) :
  let tc := runSets NewTokenCache ops in
  let tc1 := TokenCache_Set tc c t in
  shards tc !! shardOf (hashContent c) = Some sh →
  entries sh !! i = Some e →
  hash e = hashContent c →
  shards tc1 =
    <[shardOf (hashContent c) :=
        mkShard (<[i := mkEntry (hashContent c) t]> (entries sh))]> (shards tc)
  ∧ (i = 0%nat →
     length (entries sh) = maxEntriesPerShard →
     ∀ (c' : string) (t' : Z),
       shardOf (hashContent c') = shardOf (hashContent c) →
       TokenCache_Get tc c' = (0, false) →
       TokenCache_Get (TokenCache_Set tc1 c' t') c = (0, false)).
Proof.
  intros tc tc1 Hsh Hi Hh.
  assert (Hok : cacheOk tc) by apply reachable_ok.
  assert (shardOk sh) as [Hlen Hnd].
  { destruct Hok as [_ Hall]. eapply Forall_lookup_1; eassumption. }
  assert (Hshards : shards tc1 =
    <[shardOf (hashContent c) :=
        mkShard (<[i := mkEntry (hashContent c) t]> (entries sh))]> (shards tc)).
  { subst tc1. rewrite (Set_shards _ _ _ _ Hsh).
    rewrite (shardSet_update _ _ _ i e); [reflexivity|].
    apply find_hash_NoDup; assumption. }
  split; [exact Hshards|].
  intros -> Hfull c' t' Hroute Hmiss.
  rewrite <- Hroute in Hsh.
  pose proof (Get_miss _ _ _ Hsh Hmiss) as Hnew.
  destruct (entries sh) as [|e0 es] eqn:Hes; [discriminate|].
  cbn in Hi. injection Hi as ->. cbn [insert list_insert] in Hshards.
  assert (Hsh1 : shards tc1 !! shardOf (hashContent c')
                 = Some (mkShard (mkEntry (hashContent c) t :: es))).
  { rewrite Hshards, <- Hroute. apply list_lookup_insert_eq.
    eapply lookup_lt_Some, Hsh. }
  assert (Hget : shards (TokenCache_Set tc1 c' t') !! shardOf (hashContent c)
                 = Some (mkShard (es ++ [mkEntry (hashContent c') t']))).
  { rewrite (Set_shards _ _ _ _ Hsh1), <- Hroute.
    rewrite list_lookup_insert_eq by (eapply lookup_lt_Some, Hsh1).
    rewrite shardSet_append.
    - cbn [entries length]. cbn [length] in Hfull.
      rewrite decide_True by lia. reflexivity.
    - cbn [entries fmap list_fmap hash]. rewrite <- Hh. exact Hnew. }
  rewrite (Get_shard _ _ _ Hget). apply shardGet_absent. cbn [entries].
  cbn [fmap list_fmap] in Hnd, Hnew. apply NoDup_cons in Hnd as [Hhd _].
  rewrite fmap_app. cbn [fmap list_fmap hash].
  intros [Hin|Hin%list_elem_of_singleton]%elem_of_app.
  - apply Hhd. rewrite Hh. exact Hin.
  - apply Hnew. rewrite <- Hin, Hh. apply list_elem_of_here.
Qed.

End TokenCacheProps.

(** ** The statements at sample inputs *)

Module Checks.
Import GoBytes Utf8 Strings GoTime Auth Util Samples.
Import QuotaIndexProps RegistryProps ResolverProps TokenCacheProps.

#[local] Existing Instance caselessTables.

(** C1 as stated fails on a fresh index at 2025-01-01: thirty seconds
    in, the group is no longer reported as blocked. *)
Lemma recover_at_dominance_fails :
  (isGroupBlocked "g" (Add newYear (30 * Second))
     (setGroupBlocked "g" "m" (Add newYear (5 * Second))
        (Add newYear (60 * Second)) freshIndex)).1
  ≠ (true, Add newYear (60 * Second)).
Proof. vm_compute. discriminate. Qed.

Lemma recover_at_reported_witness :
  isGroupBlocked "g" (Add newYear (3 * Second))
    (setGroupBlocked "g" "m" (Add newYear (5 * Second))
       (Add newYear (60 * Second)) freshIndex)
  = ((true, Add newYear (60 * Second)),
     setGroupBlocked "g" "m" (Add newYear (5 * Second))
       (Add newYear (60 * Second)) freshIndex).
Proof.
  apply (proj2 (recover_at_reported_only_while_retry_pending freshIndex newYear)).
  - eexists. reflexivity.
  - reflexivity.
  - reflexivity.
Defined.

(** C2 as stated fails for "-foo": the family is empty, not "-foo". *)
Lemma leading_delimiter_not_whole_identifier :
  AntigravityQuotaGroupResolver "antigravity" "-foo" ≠ "-foo"%string.
Proof. vm_compute. discriminate. Qed.

Lemma leading_delimiter_witness :
  AntigravityQuotaGroupResolver "antigravity" "-foo" = EmptyString
  ∧ AntigravityQuotaGroupResolver "antigravity" "-foo" ≠ ToLower "-foo".
Proof.
  apply (leading_delimiter_gives_no_family "antigravity" "-foo").
  reflexivity.
Defined.

(** C7 as stated fails in the program as [init] leaves it: the name
    "Antigravity" was never passed to [RegisterQuotaGroupResolver], only
    "antigravity" was, and yet both lookups find it. *)
Lemma never_passed_name_is_found :
  ("Antigravity"%string ∉ (fst <$> [initCall]))
  ∧ HasQuotaGrouping "Antigravity" (registryAfter [initCall]) = true
  ∧ ResolveQuotaGroup "Antigravity" "claude-sonnet-4" (registryAfter [initCall])
    = "claude"%string.
Proof.
  split; [|split].
  - intros Hin%list_elem_of_singleton. discriminate.
  - vm_compute. reflexivity.
  - vm_compute. reflexivity.
Qed.

Lemma unregistered_provider_witness :
  HasQuotaGrouping "openai" (registryAfter [initCall]) = false
  ∧ ResolveQuotaGroup "openai" "gpt-4o" (registryAfter [initCall]) = EmptyString.
Proof.
  apply (unregistered_provider_has_no_group [initCall] "openai" "gpt-4o").
  intros p r Hin. apply list_elem_of_singleton in Hin.
  injection Hin as -> _. vm_compute. discriminate.
Defined.

Lemma lookup_does_not_trim_witness :
  (HasQuotaGrouping "P"
     (RegisterQuotaGroupResolver " P " (Some AntigravityQuotaGroupResolver)
        emptyRegistry) = true
   ↔ ToLower "P" = ToLower (TrimSpace " P ")
     ∨ HasQuotaGrouping "P" emptyRegistry = true)
  ∧ HasQuotaGrouping "p"
      (RegisterQuotaGroupResolver " P " (Some AntigravityQuotaGroupResolver)
         (registryAfter [initCall])) = true
  ∧ ResolveQuotaGroup "p" "gpt-4o"
      (RegisterQuotaGroupResolver " P " (Some AntigravityQuotaGroupResolver)
         (registryAfter [initCall]))
    = AntigravityQuotaGroupResolver "p" "gpt-4o"
  ∧ HasQuotaGrouping " p "
      (RegisterQuotaGroupResolver " P " (Some AntigravityQuotaGroupResolver)
         (registryAfter [initCall])) = false
  ∧ ResolveQuotaGroup " p " "gpt-4o"
      (RegisterQuotaGroupResolver " P " (Some AntigravityQuotaGroupResolver)
         (registryAfter [initCall])) = EmptyString.
Proof.
  assert (Htab : Unicode.tablesAvoidBlank).
  { intros r Hr. unfold To_LowerCase, caselessTables, MaxRune.
    destruct (Z.leb_spec r 1114111); lia. }
  destruct (lookup_does_not_trim [initCall] AntigravityQuotaGroupResolver
              "gpt-4o" Htab) as (Hgen & Hhas & Hres & Hno & Hnone).
  split; [|split; [|split; [|split]]].
  - apply (Hgen " P " "P" AntigravityQuotaGroupResolver emptyRegistry).
    vm_compute. discriminate.
  - exact Hhas.
  - apply Hres. discriminate.
  - exact Hno.
  - exact Hnone.
Defined.

Lemma shard_bounded_fifo_witness :
  (length (entries (mkShard (newEntry <$> fillShard3))) ≤ maxEntriesPerShard)%nat
  ∧ shards (TokenCache_Set (runSets NewTokenCache fillShard3) oneMore.1 oneMore.2)
    = <[shardOf (hashContent oneMore.1) :=
          mkShard (drop 1 (entries (mkShard (newEntry <$> fillShard3)))
                     ++ [mkEntry (hashContent oneMore.1) oneMore.2])]>
        (shards (runSets NewTokenCache fillShard3))
  ∧ TokenCache_Get (runSets (runSets NewTokenCache []) (firstCall :: laterCalls))
      firstCall.1 = (0, false)
  ∧ Forall (λ call,
              TokenCache_Get
                (runSets (runSets NewTokenCache []) (firstCall :: laterCalls))
                call.1 = (call.2, true))
           laterCalls.
Proof.
  assert (Hfull : shards (runSets NewTokenCache fillShard3) !! 3%nat
                  = Some (mkShard (newEntry <$> fillShard3))).
  { vm_compute. reflexivity. }
  assert (Hat : shards (runSets NewTokenCache fillShard3)
                  !! shardOf (hashContent oneMore.1)
                = Some (mkShard (newEntry <$> fillShard3))).
  { vm_compute. reflexivity. }
  assert (Hlen : length (entries (mkShard (newEntry <$> fillShard3)))
                 = maxEntriesPerShard).
  { vm_compute. reflexivity. }
  assert (Hnew : TokenCache_Get (runSets NewTokenCache fillShard3) oneMore.1
                 = (0, false)).
  { vm_compute. reflexivity. }
  assert (Hrest : length laterCalls = maxEntriesPerShard).
  { vm_compute. reflexivity. }
  assert (Hroute : Forall (λ call, shardOf (hashContent call.1) = 3%nat)
                     (firstCall :: laterCalls)).
  { refine (bool_decide_unpack _ _). vm_compute. exact I. }
  assert (Hdistinct : NoDup (hashContent <$> (firstCall :: laterCalls).*1)).
  { refine (bool_decide_unpack _ _). vm_compute. exact I. }
  assert (Hmiss : Forall (λ call, TokenCache_Get (runSets NewTokenCache []) call.1
                                  = (0, false))
                    (firstCall :: laterCalls)).
  { refine (bool_decide_unpack _ _). vm_compute. exact I. }
  exact (conj (proj1 shard_bounded_fifo fillShard3 3%nat _ Hfull)
           (conj (proj1 (proj2 shard_bounded_fifo) fillShard3 oneMore.1 oneMore.2
                    _ Hat Hlen Hnew)
                 (proj2 (proj2 shard_bounded_fifo) [] firstCall laterCalls 3%nat
                    Hrest Hroute Hdistinct Hmiss))).
Defined.

Lemma refresh_keeps_position_witness :
  shards (TokenCache_Set (runSets NewTokenCache fillShard3) firstCall.1 1000)
  = <[shardOf (hashContent firstCall.1) :=
        mkShard (<[0%nat := mkEntry (hashContent firstCall.1) 1000]>
                   (entries (mkShard (newEntry <$> fillShard3))))]>
      (shards (runSets NewTokenCache fillShard3))
  ∧ TokenCache_Get
      (TokenCache_Set
         (TokenCache_Set (runSets NewTokenCache fillShard3) firstCall.1 1000)
         oneMore.1 oneMore.2)
      firstCall.1 = (0, false).
Proof.
  assert (Hat : shards (runSets NewTokenCache fillShard3)
                  !! shardOf (hashContent firstCall.1)
                = Some (mkShard (newEntry <$> fillShard3))).
  { vm_compute. reflexivity. }
  assert (Hfront : entries (mkShard (newEntry <$> fillShard3)) !! 0%nat
                   = Some (newEntry firstCall)).
  { vm_compute. reflexivity. }
  assert (Hhash : hash (newEntry firstCall) = hashContent firstCall.1).
  { vm_compute. reflexivity. }
  assert (Hlen : length (entries (mkShard (newEntry <$> fillShard3)))
                 = maxEntriesPerShard).
  { vm_compute. reflexivity. }
  assert (Hroute : shardOf (hashContent oneMore.1)
                   = shardOf (hashContent firstCall.1)).
  { vm_compute. reflexivity. }
  assert (Hnew : TokenCache_Get (runSets NewTokenCache fillShard3) oneMore.1
                 = (0, false)).
  { vm_compute. reflexivity. }
  pose proof (refresh_keeps_position fillShard3 firstCall.1 1000 _ 0%nat _
                Hat Hfront Hhash) as [Hsame Hevicted].
  exact (conj Hsame (Hevicted eq_refl Hlen oneMore.1 oneMore.2 Hroute Hnew)).
Defined.

End Checks.

(** * Further properties *)

(** ** The token cache *)

Module CacheExtra.
Import GoBytes Util UtilHistory TokenCacheProps.

Implicit Types (sh : tokenCacheShard) (es : list tokenCacheEntry)
  (tc : TokenCache) (h t : Z).

Lemma shardGet_cons h e es :
  shardGet h (mkShard (e :: es)) =
    if decide (hash e = h) then (tokens e, true) else shardGet h (mkShard es).
Proof.
  unfold shardGet. cbn [entries list_find].
  destruct (decide (hash e = h)); [reflexivity|].
  destruct (list_find _ es) as [[i x]|]; reflexivity.
Qed.

Lemma shardGet_nil h : shardGet h (mkShard []) = (0, false).
Proof. reflexivity. Qed.

Lemma shardGet_snoc_other h es e :
  hash e ≠ h → shardGet h (mkShard (es ++ [e])) = shardGet h (mkShard es).
Proof.
  intros Hne. induction es as [|x es IH].
  - cbn [app]. rewrite shardGet_cons, decide_False by exact Hne. reflexivity.
  - cbn [app]. rewrite !shardGet_cons, IH. reflexivity.
Qed.

Lemma shardGet_insert_other h es : ∀ (i : nat) (e e' : tokenCacheEntry),
  es !! i = Some e → hash e ≠ h → hash e' ≠ h →
  shardGet h (mkShard (<[i := e']> es)) = shardGet h (mkShard es).
Proof.
  induction es as [|x es IH]; intros i e e' Hi He He'; [discriminate|].
  destruct i as [|i]; cbn [insert list_insert].
  - cbn in Hi. injection Hi as ->.
    rewrite !shardGet_cons, !decide_False by assumption. reflexivity.
  - rewrite !shardGet_cons. destruct (decide _); [reflexivity|].
    eapply IH; eassumption.
Qed.

Lemma shardGet_hit h sh t :
  shardGet h sh = (t, true) →
  ∃ (i : nat) (e : tokenCacheEntry),
    list_find (λ e, hash e = h) (entries sh) = Some (i, e) ∧ tokens e = t
    ∧ hash e = h ∧ entries sh !! i = Some e.
Proof.
  unfold shardGet.
  destruct (list_find _ _) as [[i e]|] eqn:Hfind; [|discriminate].
  intros [= <-]. exists i, e. split; [reflexivity|].
  apply list_find_Some in Hfind as (Hi & Hh & _). auto.
Qed.

Lemma shardGet_cases h sh :
  (shardGet h sh = (0, false) ∧ h ∉ hash <$> entries sh)
  ∨ ∃ e, e ∈ entries sh ∧ hash e = h ∧ shardGet h sh = (tokens e, true).
Proof.
  unfold shardGet.
  destruct (list_find _ _) as [[i e]|] eqn:Hfind.
  - right. apply list_find_Some in Hfind as (Hi & Hh & _).
    exists e. split; [eapply list_elem_of_lookup_2, Hi|auto].
  - left. split; [reflexivity|]. apply find_hash_None, Hfind.
Qed.

Lemma reachable_shard (ops : list (string * Z)) (i : nat) sh :
  shards (runSets NewTokenCache ops) !! i = Some sh → shardOk sh.
Proof.
  intros Hsh. destruct (reachable_ok ops) as [_ Hall].
  eapply Forall_lookup_1; eassumption.
Qed.

Lemma Get_Set_same_shard tc c t c' sh :
  shards tc !! shardOf (hashContent c) = Some sh →
  shardOf (hashContent c') = shardOf (hashContent c) →
  TokenCache_Get (TokenCache_Set tc c t) c'
  = shardGet (hashContent c') (shardSet (hashContent c) t sh).
Proof.
  intros Hsh Hroute. apply Get_shard.
  rewrite (Set_shards _ _ _ _ Hsh), Hroute.
  apply list_lookup_insert_eq. eapply lookup_lt_Some, Hsh.
Qed.

Lemma Get_Set_other_shard tc c t c' :
  shardOf (hashContent c') ≠ shardOf (hashContent c) →
  TokenCache_Get (TokenCache_Set tc c t) c' = TokenCache_Get tc c'.
Proof.
  intros Hroute. unfold TokenCache_Get at 1, TokenCache_Set.
  destruct (shards tc !! shardOf (hashContent c)) as [sh|] eqn:Hsh; [|reflexivity].
  cbn [shards]. rewrite list_lookup_insert_ne by congruence. reflexivity.
Qed.

(** X1.  On every cache built by [Set] calls, [Get(c')] right after
    [Set(c, t)] returns [(t, true)] whenever [c'] has the hash of [c]: for
    [c' = c] this is the round trip, and two contents with one hash share
    one entry. *)
Theorem get_after_set (ops : list (string * Z)) (c c' : string) (t : Z) :
  hashContent c' = hashContent c →
  TokenCache_Get (TokenCache_Set (runSets NewTokenCache ops) c t) c' = (t, true).
Proof.
  intros Hh.
  destruct (cacheOk_lookup _ (hashContent c) (reachable_ok ops)) as (sh & Hsh & _).
  rewrite (Get_Set_same_shard _ _ _ _ _ Hsh) by (rewrite Hh; reflexivity).
  rewrite Hh. apply shardGet_shardSet.
Qed.


Lemma shardSet_elem h t sh (e : tokenCacheEntry) :
  NoDup (hash <$> entries sh) →
  e ∈ entries (shardSet h t sh) →
  e = mkEntry h t ∨ (e ∈ entries sh ∧ hash e ≠ h).
Proof.
  intros Hnd Hin.
  destruct (list_find (λ e, hash e = h) (entries sh)) as [[i e0]|] eqn:Hfind.
  - rewrite (shardSet_update _ _ _ _ _ Hfind) in Hin. cbn [entries] in Hin.
    apply list_find_Some in Hfind as (Hi & Hh & _).
    apply list_elem_of_lookup_1 in Hin as [j Hj].
    apply list_lookup_insert_Some in Hj as [(_ & <- & _)|[Hne Hj]]; [left; reflexivity|].
    right. split; [eapply list_elem_of_lookup_2, Hj|].
    intros Heq. apply Hne.
    apply (NoDup_lookup _ _ _ h Hnd); rewrite list_lookup_fmap.
    + rewrite Hi. cbn. congruence.
    + rewrite Hj. cbn. congruence.
  - apply find_hash_None in Hfind.
    rewrite (shardSet_append _ _ _ Hfind) in Hin. cbn [entries] in Hin.
    apply elem_of_app in Hin as [Hin|Hin%list_elem_of_singleton]; [|left; exact Hin].
    assert (e ∈ entries sh) as Hold.
    { destruct (decide _); [eapply subseteq_drop, Hin|exact Hin]. }
    right. split; [exact Hold|]. intros Heq. apply Hfind.
    apply list_elem_of_fmap. exists e. auto.
Qed.

Lemma runSets_snoc tc (ops : list (string * Z)) (c : string) t :
  runSets tc (ops ++ [(c, t)]) = TokenCache_Set (runSets tc ops) c t.
Proof. unfold runSets. rewrite foldl_snoc. reflexivity. Qed.

Lemma lastTokens_snoc (ops : list (string * Z)) (c : string) t h :
  lastTokens (ops ++ [(c, t)]) h =
    if decide (hashContent c = h) then Some t else lastTokens ops h.
Proof. unfold lastTokens. rewrite foldl_snoc. reflexivity. Qed.

(** Every entry sits in the shard its hash selects, and carries the count
    of the latest call with its hash. *)
Lemma reachable_entries (ops : list (string * Z)) :
  ∀ (i : nat) sh (e : tokenCacheEntry),
    shards (runSets NewTokenCache ops) !! i = Some sh → e ∈ entries sh →
    shardOf (hash e) = i ∧ lastTokens ops (hash e) = Some (tokens e).
Proof.
  induction ops as [|[c t] ops IH] using rev_ind; intros i sh e Hsh Hin.
  - cbn in Hsh. apply lookup_replicate in Hsh as [-> _]. inversion Hin.
  - rewrite runSets_snoc in Hsh. rewrite lastTokens_snoc.
    destruct (cacheOk_lookup _ (hashContent c) (reachable_ok ops))
      as (sh0 & Hsh0 & [_ Hnd]).
    rewrite (Set_shards _ _ _ _ Hsh0) in Hsh.
    destruct (decide (i = shardOf (hashContent c))) as [->|Hne].
    + rewrite list_lookup_insert_eq in Hsh by (eapply lookup_lt_Some, Hsh0).
      injection Hsh as <-.
      apply (shardSet_elem _ _ _ _ Hnd) in Hin as [->|[Hin Hh]].
      * cbn [hash tokens]. rewrite decide_True by reflexivity. auto.
      * rewrite decide_False by congruence. eapply IH; eassumption.
    + rewrite list_lookup_insert_ne in Hsh by congruence.
      destruct (IH _ _ _ Hsh Hin) as [Hroute Hlast].
      rewrite decide_False; [auto|]. intros Heq. apply Hne.
      rewrite <- Hroute, Heq. reflexivity.
Qed.

(** X2.  [Set(c, t)] changes the answer of [Get] for a content with
    another hash in one case only: when [c] is new to a full shard and that
    content owns the front entry, which is evicted.  In every other case
    [Get] answers as before, hit or miss. *)
Theorem set_keeps_other_hashes (ops : list (string * Z)) (c c' : string) (t : Z) :
  let tc := runSets NewTokenCache ops in
  hashContent c' ≠ hashContent c →
  TokenCache_Get (TokenCache_Set tc c t) c' =
    if decide (evictedHash tc c = Some (hashContent c'))
    then (0, false) else TokenCache_Get tc c'.
Proof.
  intros tc Hne.
  destruct (cacheOk_lookup tc (hashContent c) (reachable_ok ops))
    as (sh & Hsh & [Hlen Hnd]).
  unfold evictedHash. rewrite Hsh.
  destruct (decide (shardOf (hashContent c') = shardOf (hashContent c))) as [Hk|Hk].
  - rewrite (Get_Set_same_shard _ _ _ _ _ Hsh Hk).
    rewrite (Get_shard tc c' sh) by (rewrite Hk; exact Hsh).
    destruct (list_find (λ e, hash e = hashContent c) (entries sh))
      as [[i e]|] eqn:Hfind.
    + rewrite (shardSet_update _ _ _ _ _ Hfind).
      apply list_find_Some in Hfind as (Hi & Hh & _).
      rewrite decide_False by discriminate.
      rewrite (shardGet_insert_other _ _ i e) by (cbn [hash]; congruence).
      destruct sh; reflexivity.
    + pose proof Hfind as Hnot%find_hash_None.
      rewrite (shardSet_append _ _ _ Hnot).
      rewrite shardGet_snoc_other by (cbn [hash]; congruence).
      destruct (decide (maxEntriesPerShard ≤ length (entries sh))%nat) as [Hfull|].
      * destruct sh as [[|e0 es]]; cbn [entries] in *;
          [unfold maxEntriesPerShard in Hfull; cbn in Hfull; lia|].
        cbn [drop head fmap option_fmap option_map]. rewrite shardGet_cons.
        cbn [fmap list_fmap] in Hnd. apply NoDup_cons in Hnd as [Hhd _].
        destruct (decide (hash e0 = hashContent c')) as [Heq|Hdiff].
        -- rewrite decide_True by congruence.
           apply shardGet_absent. cbn [entries]. rewrite <- Heq. exact Hhd.
        -- rewrite decide_False by congruence. reflexivity.
      * rewrite decide_False by discriminate. destruct sh; reflexivity.
  - rewrite Get_Set_other_shard by exact Hk.
    rewrite decide_False; [reflexivity|].
    destruct (list_find _ _); [discriminate|].
    destruct (decide _); [|discriminate].
    destruct (entries sh) as [|e0 es] eqn:Hes; [discriminate|].
    cbn. intros [= Heq]. apply Hk.
    destruct (reachable_entries ops _ sh e0 Hsh) as [Hroute _].
    { rewrite Hes. apply list_elem_of_here. }
    rewrite <- Heq. exact Hroute.
Qed.

(** X3.  A hit never returns a stale count: whenever [Get(c)] finds
    an entry, its count is the one of the most recent [Set] whose content has
    the hash of [c].  (A content whose hash was never set is a miss.) *)
Theorem get_returns_latest_set (ops : list (string * Z)) (c : string) :
  let tc := runSets NewTokenCache ops in
  TokenCache_Get tc c = (0, false)
  ∨ ∃ t : Z, lastTokens ops (hashContent c) = Some t
             ∧ TokenCache_Get tc c = (t, true).
Proof.
  intros tc.
  destruct (cacheOk_lookup tc (hashContent c) (reachable_ok ops)) as (sh & Hsh & _).
  rewrite (Get_shard _ _ _ Hsh).
  destruct (shardGet_cases (hashContent c) sh) as [[Hmiss _]|(e & Hin & Hh & Hhit)].
  - left. exact Hmiss.
  - right. exists (tokens e). split; [|exact Hhit].
    destruct (reachable_entries ops _ sh e Hsh Hin) as [_ Hlast].
    rewrite <- Hh. exact Hlast.
Qed.

(** X4.  In every shard of a cache built by [Set] calls the hashes
    are pairwise distinct, and every entry sits in shard
    [hash % numShards]. *)
Theorem shards_hold_their_own_distinct_hashes
    (ops : list (string * Z)) (i : nat) (sh : tokenCacheShard) :
  shards (runSets NewTokenCache ops) !! i = Some sh →
  NoDup (hash <$> entries sh)
  ∧ Forall (λ e, shardOf (hash e) = i) (entries sh).
Proof.
  intros Hsh. split.
  - apply (reachable_shard ops i sh Hsh).
  - apply Forall_forall. intros e Hin.
    apply (reachable_entries ops i sh e Hsh Hin).
Qed.

Lemma sum_list_bound (b : nat) (l : list nat) :
  Forall (λ n, n ≤ b)%nat l → (sum_list l ≤ b * length l)%nat.
Proof.
  induction 1 as [|n l Hn _ IH]; simpl; lia.
Qed.

(** X5.  A cache never holds more than
    [numShards * maxEntriesPerShard] = 1024 entries. *)
Theorem cache_size_bounded (ops : list (string * Z)) :
  (cacheSize (runSets NewTokenCache ops)
   ≤ Z.to_nat numShards * maxEntriesPerShard)%nat.
Proof.
  destruct (reachable_ok ops) as [Hlen Hall]. unfold cacheSize.
  etrans; [apply (sum_list_bound maxEntriesPerShard)|].
  - apply Forall_fmap. eapply Forall_impl; [exact Hall|].
    intros sh [Hle _]. exact Hle.
  - rewrite length_fmap, Hlen. lia.
Qed.

(** X6.  Repeating a [Set] with the same content and count leaves
    the cache exactly as the first one left it. *)
Theorem set_is_idempotent (ops : list (string * Z)) (c : string) (t : Z) :
  let tc := runSets NewTokenCache ops in
  TokenCache_Set (TokenCache_Set tc c t) c t = TokenCache_Set tc c t.
Proof.
  intros tc.
  destruct (cacheOk_lookup tc (hashContent c) (reachable_ok ops)) as (sh & Hsh & _).
  assert (Hsh1 : shards (TokenCache_Set tc c t) !! shardOf (hashContent c)
                 = Some (shardSet (hashContent c) t sh)).
  { rewrite (Set_shards _ _ _ _ Hsh).
    apply list_lookup_insert_eq. eapply lookup_lt_Some, Hsh. }
  unfold TokenCache_Set at 1. rewrite Hsh1.
  destruct (shardGet_hit _ _ _ (shardGet_shardSet (hashContent c) t sh))
    as (i & e & Hfind & Ht & Hh & Hi).
  rewrite (shardSet_update _ _ _ _ _ Hfind).
  replace (mkEntry (hashContent c) t) with e by (destruct e; cbn in *; congruence).
  rewrite (list_insert_id _ _ _ Hi).
  rewrite (list_insert_id (shards (TokenCache_Set tc c t))).
  - destruct (TokenCache_Set tc c t). reflexivity.
  - rewrite Hsh1. destruct (shardSet _ _ _). reflexivity.
Qed.

End CacheExtra.

(** ** The blocked-group index *)

Module IndexExtra.
Import GoTime Auth.



(** X7.  On every index: when [isGroupBlocked] answers blocked, the
    time it returns is after [now] and the index is left as it was; when it
    answers not blocked, the time is the zero time. *)
Theorem blocked_answer_is_in_the_future
    (idx : option quotaGroupIndex) (g : string) (now : Time) :
  let r := isGroupBlocked g now idx in
  (r.1.1 = true → After r.1.2 now = true ∧ r.2 = idx)
  ∧ (r.1.1 = false → r.1.2 = zeroTime).
Proof.
  unfold isGroupBlocked.
  destruct idx as [[[m|]]|]; cbn [blockedGroups]; try (split; [discriminate|reflexivity]).
  destruct (bool_decide _); [split; [discriminate|reflexivity]|].
  destruct (m !! g) as [[st|]|]; try (split; [discriminate|reflexivity]).
  destruct (After (NextRetryAfter st) now) eqn:Hretry; [|split; [discriminate|reflexivity]].
  cbn [fst snd]. split; [intros _|discriminate]. split; [|reflexivity].
  destruct (negb _ && After (NextRecoverAt st) now && _) eqn:Hc; [|exact Hretry].
  apply andb_prop in Hc as [Hc _]. apply andb_prop in Hc as [_ Hc]. exact Hc.
Qed.


Lemma isGroupBlocked_lookup (idx : option quotaGroupIndex) (g : string) (now : Time) :
  (isGroupBlocked g now idx).1 =
    match idx with
    | Some (mkIndex (Some m)) =>
        if bool_decide (g = EmptyString) then (false, zeroTime)
        else match m !! g with
             | Some (Some st) =>
                 if After (NextRetryAfter st) now
                 then (true,
                       if negb (IsZero (NextRecoverAt st))
                          && After (NextRecoverAt st) now
                          && After (NextRecoverAt st) (NextRetryAfter st)
                       then NextRecoverAt st else NextRetryAfter st)
                 else (false, zeroTime)
             | _ => (false, zeroTime)
             end
    | _ => (false, zeroTime)
    end.
Proof.
  unfold isGroupBlocked. destruct idx as [[[m|]]|]; cbn [blockedGroups]; try reflexivity.
  destruct (bool_decide _); [reflexivity|].
  destruct (m !! g) as [[st|]|]; try reflexivity.
  destruct (After _ now); reflexivity.
Qed.

(** X9.  [setGroupBlocked], [clearGroup] and the lazy deletion of
    [isGroupBlocked] on one group never change what [isGroupBlocked] answers
    for another group. *)
Theorem other_groups_are_untouched
    (idx : option quotaGroupIndex) (g g' m : string)
    (retry recover now now' : Time) :
  g' ≠ g →
  (isGroupBlocked g' now (setGroupBlocked g m retry recover idx)).1
    = (isGroupBlocked g' now idx).1
  ∧ (isGroupBlocked g' now (clearGroup g idx)).1 = (isGroupBlocked g' now idx).1
  ∧ (isGroupBlocked g' now (isGroupBlocked g now' idx).2).1
    = (isGroupBlocked g' now idx).1.
Proof.
  intros Hne. rewrite !isGroupBlocked_lookup. split; [|split].
  - unfold setGroupBlocked. destruct idx as [[[m0|]]|]; [| |reflexivity].
    + destruct (bool_decide (g = EmptyString)); [reflexivity|].
      cbn [blockedGroups]. rewrite lookup_insert_ne by congruence. reflexivity.
    + destruct (bool_decide (g = EmptyString)); [reflexivity|].
      cbn [blockedGroups]. rewrite lookup_insert_ne by congruence.
      rewrite lookup_empty. destruct (bool_decide _); reflexivity.
  - unfold clearGroup. destruct idx as [[[m0|]]|]; try reflexivity.
    cbn [blockedGroups]. rewrite lookup_delete_ne by congruence. reflexivity.
  - unfold isGroupBlocked. destruct idx as [[[m0|]]|]; try reflexivity.
    cbn [blockedGroups]. destruct (bool_decide (g = EmptyString)); [reflexivity|].
    destruct (m0 !! g) as [[st|]|]; try reflexivity.
    destruct (After _ now'); [reflexivity|]. cbn [snd].
    rewrite lookup_delete_ne by congruence. reflexivity.
Qed.

(** X10.  Once [isGroupBlocked] has answered not blocked for a
    group, it answers not blocked on the index it left behind for every
    [now], also an earlier one, until the group is blocked again. *)
Theorem unblocked_stays_unblocked
    (idx : option quotaGroupIndex) (g : string) (now now' : Time) :
  (isGroupBlocked g now idx).1.1 = false →
  (isGroupBlocked g now' (isGroupBlocked g now idx).2).1 = (false, zeroTime).
Proof.
  rewrite isGroupBlocked_lookup. unfold isGroupBlocked.
  destruct idx as [[[m|]]|]; try reflexivity. cbn [blockedGroups].
  destruct (bool_decide (g = EmptyString)) eqn:Hg.
  { intros _. cbn [snd blockedGroups]. rewrite ?Hg. reflexivity. }
  destruct (m !! g) as [[st|]|] eqn:Hm.
  - destruct (After (NextRetryAfter st) now); [discriminate|]. intros _.
    cbn [snd blockedGroups]. rewrite ?Hg, lookup_delete_eq. reflexivity.
  - intros _. cbn [snd blockedGroups]. rewrite ?Hg, Hm. reflexivity.
  - intros _. cbn [snd blockedGroups]. rewrite ?Hg, Hm. reflexivity.
Qed.


(** X12.  A later [setGroupBlocked] on a group replaces what an
    earlier one recorded, and (for a non-empty group) blocking after
    [clearGroup] is the same as blocking directly. *)
Theorem last_block_wins
    (idx : option quotaGroupIndex) (g m1 m2 : string)
    (retry1 recover1 retry2 recover2 : Time) :
  setGroupBlocked g m2 retry2 recover2 (setGroupBlocked g m1 retry1 recover1 idx)
    = setGroupBlocked g m2 retry2 recover2 idx
  ∧ (g ≠ EmptyString →
     setGroupBlocked g m2 retry2 recover2 (clearGroup g idx)
     = setGroupBlocked g m2 retry2 recover2 idx).
Proof.
  unfold setGroupBlocked, clearGroup. destruct idx as [[bg]|]; [|split; reflexivity].
  split.
  - destruct (bool_decide (g = EmptyString)) eqn:Hg; rewrite ?Hg; [reflexivity|].
    cbn [blockedGroups]. rewrite insert_insert_eq. reflexivity.
  - intros Hg. cbn [blockedGroups]. destruct bg as [m|].
    + rewrite (bool_decide_eq_false_2 _ Hg). cbn [blockedGroups].
      rewrite insert_delete_eq. reflexivity.
    + reflexivity.
Qed.

End IndexExtra.

(** ** The runtime slot *)

Module RuntimeExtra.
Import GoTime Auth AuthRuntime.

(** X13.  After [getOrCreateQuotaGroupIndex], [getQuotaGroupIndex]
    returns the same pointer, and a second [getOrCreateQuotaGroupIndex]
    returns it again without changing the credential or the store. *)
Theorem get_or_create_is_idempotent (auth : option AuthRuntime.Auth) (st : indexStore) :
  let '(p, auth', st') := getOrCreateQuotaGroupIndex auth st in
  getQuotaGroupIndex auth' = p
  ∧ getOrCreateQuotaGroupIndex auth' st' = (p, auth', st').
Proof.
  destruct auth as [[[|p|v]]|]; cbn; auto.
Qed.

(** X14.  On a credential that is not nil,
    [getOrCreateQuotaGroupIndex] returns the index pointer the runtime slot
    already holds, changing nothing.  If the slot is empty or holds a value
    of another type, that value is replaced by a pointer to a newly
    allocated index in which no group is blocked; no existing object of the
    store is touched. *)
Theorem get_or_create_result (a : AuthRuntime.Auth) (st : indexStore) :
  let '(p, auth', st') := getOrCreateQuotaGroupIndex (Some a) st in
  match Runtime a with
  | RuntimeIndex p0 => p = p0 ∧ auth' = Some a ∧ st' = st
  | _ =>
      ∃ l : positive,
        p = Some l ∧ st !! l = None
        ∧ auth' = Some (mkAuth (RuntimeIndex (Some l)))
        ∧ deref p st' = Some emptyIndex
        ∧ (∀ l' : positive, l' ≠ l → st' !! l' = st !! l')
        ∧ ∀ (g : string) (now : Time),
            isGroupBlocked g now (deref p st') = ((false, zeroTime), deref p st')
  end.
Proof.
  assert (Hfresh : st !! fresh (dom st) = None).
  { apply not_elem_of_dom, is_fresh. }
  destruct a as [[|p0|v]]; cbn [getOrCreateQuotaGroupIndex AuthRuntime.Runtime]; auto.
  all: exists (fresh (dom st)); cbn [deref]; rewrite lookup_insert_eq;
    repeat split; auto.
  all: try (intros l' Hne; apply lookup_insert_ne; congruence).
  all: intros g now; unfold isGroupBlocked, emptyIndex; cbn [blockedGroups];
    rewrite lookup_empty; destruct (bool_decide _); reflexivity.
Qed.

End RuntimeExtra.

(** ** The resolver registry *)

Module RegistryExtra.
Import GoBytes Utf8 Strings Auth StringFacts StringsSpec RegistryProps.

Lemma TrimSpace_onlyAsciiSpace (s : string) :
  onlyAsciiSpace s = true → TrimSpace s = EmptyString.
Proof.
  induction s as [|c s IH]; [reflexivity|]. cbn [onlyAsciiSpace TrimSpace].
  intros [Hc Hs]%andb_prop. rewrite Hc.
  destruct (Z.leb_spec RuneSelf (byteval c)) as [Hge|]; [|auto].
  unfold asciiSpace, RuneSelf in *.
  repeat (apply orb_prop in Hc as [Hc|Hc]); apply Z.eqb_eq in Hc; lia.
Qed.

Section WithCaseTables.
Context `{CaseTables}.

Lemma ToLower_empty : ToLower EmptyString = EmptyString.
Proof. reflexivity. Qed.

(** Every stored resolver is a function, never [nil]. *)
Lemma registryAfter_resolver_not_nil calls k r :
  quotaGroupResolvers (registryAfter calls) !! k = Some r → r ≠ None.
Proof.
  revert k r. induction calls as [|[p r0] calls IH] using rev_ind; intros k r.
  - cbn. rewrite lookup_empty. discriminate.
  - rewrite registryAfter_snoc.
    destruct (Register_cases p r0 (registryAfter calls))
      as [[-> _]|(f & -> & Hne & ->)]; [apply IH|].
    cbn [quotaGroupResolvers].
    destruct (decide (ToLower (TrimSpace p) = k)) as [->|Hk].
    + rewrite lookup_insert_eq. intros [= <-]. discriminate.
    + rewrite lookup_insert_ne by exact Hk. apply IH.
Qed.

(** X15.  In every history of registrations the fast-lookup set
    and the resolver map agree: where [HasQuotaGrouping] is false
    [ResolveQuotaGroup] returns the empty string for every model, and where
    it is true the map holds a resolver that is not nil, which
    [ResolveQuotaGroup] calls with the lower-cased provider for every
    non-empty model. *)
Theorem fast_set_agrees_with_resolvers
    (calls : list (string * QuotaGroupResolver)) (provider : string) :
  let reg := registryAfter calls in
  (HasQuotaGrouping provider reg = false →
   ∀ model, ResolveQuotaGroup provider model reg = EmptyString)
  ∧ (HasQuotaGrouping provider reg = true →
     provider ≠ EmptyString
     ∧ ∃ f : string → string → string,
         quotaGroupResolvers reg !! ToLower provider = Some (Some f)
         ∧ ∀ model, model ≠ EmptyString →
             ResolveQuotaGroup provider model reg = f (ToLower provider) model).
Proof.
  intros reg. subst reg. unfold HasQuotaGrouping. split.
  - intros Hno%bool_decide_eq_false model. unfold ResolveQuotaGroup.
    rewrite (registryAfter_lookup_None _ _ Hno).
    destruct (_ || _); reflexivity.
  - intros Hyes%bool_decide_eq_true.
    assert (provider ≠ EmptyString) as Hp.
    { intros ->. apply registryAfter_providers in Hyes as (p & f & _ & Hk & Hne).
      apply Hne. reflexivity. }
    split; [exact Hp|].
    rewrite <- registryAfter_dom in Hyes.
    apply elem_of_dom in Hyes as [r Hr].
    destruct r as [f|]; [|exfalso; exact (registryAfter_resolver_not_nil _ _ _ Hr eq_refl)].
    exists f. split; [exact Hr|]. intros model Hm. unfold ResolveQuotaGroup.
    rewrite (bool_decide_eq_false_2 _ Hp), (bool_decide_eq_false_2 _ Hm), Hr.
    reflexivity.
Qed.

Lemma Register_uniform p r :
  (∀ reg, RegisterQuotaGroupResolver p r reg = reg)
  ∨ (∃ f, r = Some f ∧ ToLower (TrimSpace p) ≠ EmptyString
          ∧ ∀ reg, RegisterQuotaGroupResolver p r reg =
              mkRegistry (<[ToLower (TrimSpace p) := Some f]> (quotaGroupResolvers reg))
                         ({[ToLower (TrimSpace p)]} ∪ quotaGroupProviders reg)).
Proof.
  destruct (decide (ToLower (TrimSpace p) = EmptyString)) as [He|Hne].
  - left. intros reg. apply Register_ignored. auto.
  - destruct r as [f|].
    + right. exists f. repeat split; [exact Hne|].
      intros reg. apply Register_effective, Hne.
    + left. intros reg. apply Register_ignored. auto.
Qed.

(** X16.  Registrations under different normalised names commute:
    the order in which providers are registered does not matter. *)
Theorem registrations_commute
    (p1 p2 : string) (r1 r2 : QuotaGroupResolver) (reg : registry) :
  ToLower (TrimSpace p1) ≠ ToLower (TrimSpace p2) →
  RegisterQuotaGroupResolver p1 r1 (RegisterQuotaGroupResolver p2 r2 reg)
  = RegisterQuotaGroupResolver p2 r2 (RegisterQuotaGroupResolver p1 r1 reg).
Proof.
  intros Hne.
  destruct (Register_uniform p1 r1) as [H1|(f1 & -> & Hk1 & H1)];
    destruct (Register_uniform p2 r2) as [H2|(f2 & -> & Hk2 & H2)];
    rewrite ?H1, ?H2; try reflexivity.
  cbn [quotaGroupResolvers quotaGroupProviders]. f_equal.
  - apply insert_insert_ne. exact Hne.
  - apply set_eq. intros k. rewrite !elem_of_union. tauto.
Qed.

(** X17.  Registering under a name that is empty or consists of
    ASCII white space only, or registering a nil resolver, leaves the
    registry unchanged. *)
Theorem blank_registration_is_ignored
    (p : string) (r : QuotaGroupResolver) (reg : registry) :
  onlyAsciiSpace p = true ∨ r = None →
  RegisterQuotaGroupResolver p r reg = reg.
Proof.
  intros [Hp| ->]; apply Register_ignored; [left|right; reflexivity].
  rewrite (TrimSpace_onlyAsciiSpace _ Hp). reflexivity.
Qed.

(** A registration leaves the lookups under every other key alone. *)
Lemma Register_other_key
    (p q : string) (r : QuotaGroupResolver) (reg : registry) :
  ToLower q ≠ ToLower (TrimSpace p) →
  HasQuotaGrouping q (RegisterQuotaGroupResolver p r reg) = HasQuotaGrouping q reg
  ∧ ∀ model, ResolveQuotaGroup q model (RegisterQuotaGroupResolver p r reg)
             = ResolveQuotaGroup q model reg.
Proof.
  intros Hne.
  destruct (Register_uniform p r) as [Hr|(f & -> & Hk & Hr)]; rewrite !Hr; [auto|].
  unfold HasQuotaGrouping, ResolveQuotaGroup.
  cbn [quotaGroupResolvers quotaGroupProviders]. split.
  - apply bool_decide_ext. rewrite elem_of_union, elem_of_singleton.
    split; [intros [?|?]; [congruence|assumption]|auto].
  - intros model. rewrite lookup_insert_ne by congruence. reflexivity.
Qed.

(** X18.  A registration changes the lookups of no provider whose
    lower-cased name differs from the registered key, and never turns
    [HasQuotaGrouping] from true to false. *)
Theorem registration_touches_one_key
    (p q : string) (r : QuotaGroupResolver) (reg : registry) :
  (ToLower q ≠ ToLower (TrimSpace p) →
   HasQuotaGrouping q (RegisterQuotaGroupResolver p r reg) = HasQuotaGrouping q reg
   ∧ ∀ model, ResolveQuotaGroup q model (RegisterQuotaGroupResolver p r reg)
              = ResolveQuotaGroup q model reg)
  ∧ (HasQuotaGrouping q reg = true →
     HasQuotaGrouping q (RegisterQuotaGroupResolver p r reg) = true).
Proof.
  split; [apply Register_other_key|].
  destruct (Register_uniform p r) as [Hr|(f & -> & Hk & Hr)]; rewrite !Hr; [auto|].
  unfold HasQuotaGrouping. cbn [quotaGroupProviders].
  rewrite !bool_decide_eq_true, elem_of_union. auto.
Qed.

(** X19.  With the registration [init] makes, and as long as no
    later registration uses the key "antigravity", every spelling of the
    provider that lower-cases to "antigravity" has grouping, and its group
    for a non-empty model is the model's family. *)
Theorem antigravity_groups_by_family
    (calls : list (string * QuotaGroupResolver)) (p m : string) :
  (∀ q r, (q, r) ∈ calls → ToLower (TrimSpace q) ≠ "antigravity"%string) →
  ToLower p = "antigravity"%string →
  m ≠ EmptyString →
  HasQuotaGrouping p (registryAfter (initCall :: calls)) = true
  ∧ ResolveQuotaGroup p m (registryAfter (initCall :: calls)) = extractModelFamily m.
Proof.
  intros Hcalls Hp Hm.
  induction calls as [|[q r] calls IH] using rev_ind.
  - change (registryAfter [initCall]) with
      (RegisterQuotaGroupResolver "antigravity"
         (Some AntigravityQuotaGroupResolver) emptyRegistry).
    rewrite Register_effective by discriminate.
    change (ToLower (TrimSpace "antigravity")) with "antigravity"%string.
    unfold HasQuotaGrouping, ResolveQuotaGroup.
    cbn [quotaGroupResolvers quotaGroupProviders]. rewrite Hp. split.
    + apply bool_decide_eq_true_2, elem_of_union. left.
      apply elem_of_singleton. reflexivity.
    + rewrite (bool_decide_eq_false_2 (p = EmptyString))
        by (intros ->; discriminate Hp).
      rewrite (bool_decide_eq_false_2 _ Hm), lookup_insert_eq. reflexivity.
  - change (initCall :: calls ++ [(q, r)]) with ((initCall :: calls) ++ [(q, r)]).
    rewrite registryAfter_snoc.
    destruct (Register_other_key q p r (registryAfter (initCall :: calls)))
      as [Hhas Hres].
    { rewrite Hp. intros Heq. apply (Hcalls q r); [|auto].
      apply elem_of_app. right. apply list_elem_of_singleton. reflexivity. }
    rewrite Hhas, Hres. apply IH. intros q' r' Hin. apply (Hcalls q' r').
    apply elem_of_app. left. exact Hin.
Qed.

End WithCaseTables.
End RegistryExtra.

(** ** The family resolver *)

Module FamilyExtra.
Import GoBytes Utf8 Strings Auth StringFacts FamilySpec.

Lemma rangeFrom_runes (s : string) : ∀ (i j k : nat),
  (rangeFrom i k s).*2 = (rangeFrom j k s).*2.
Proof.
  induction s as [|c s IH]; intros i j k; [reflexivity|].
  destruct k as [|k].
  - rewrite !rangeFrom_cons. cbn [fmap list_fmap snd]. f_equal. apply IH.
  - cbn [rangeFrom]. apply IH.
Qed.

Lemma Map_runes (mapping : Z → Z) (s : string) :
  Map mapping s =
    foldr (λ r acc, if 0 <=? mapping r then AppendRune (mapping r) +:+ acc else acc)
          EmptyString (range s).*2.
Proof. unfold Map. rewrite foldr_fmap. reflexivity. Qed.

Lemma lowerBytes_app (a b : string) :
  lowerBytes (a +:+ b) = lowerBytes a +:+ lowerBytes b.
Proof.
  induction a as [|c a IH]; [reflexivity|].
  rewrite append_cons. cbn [lowerBytes]. rewrite IH, append_cons. reflexivity.
Qed.

Lemma isASCII_app (a b : string) :
  isASCII (a +:+ b) = isASCII a && isASCII b.
Proof.
  induction a as [|c a IH]; [reflexivity|].
  rewrite append_cons. cbn [isASCII]. rewrite IH, andb_assoc. reflexivity.
Qed.

Lemma hasUpper_app (a b : string) :
  hasUpper (a +:+ b) = hasUpper a || hasUpper b.
Proof.
  induction a as [|c a IH]; [reflexivity|].
  rewrite append_cons. cbn [hasUpper]. rewrite IH, orb_assoc. reflexivity.
Qed.

Lemma lowerBytes_no_upper (s : string) :
  hasUpper s = false → lowerBytes s = s.
Proof.
  induction s as [|c s IH]; [reflexivity|]. cbn [hasUpper lowerBytes].
  intros [-> Hs]%orb_false_elim. rewrite IH by exact Hs. reflexivity.
Qed.

Lemma plainAscii_isASCII (s : string) : plainAscii s = true → isASCII s = true.
Proof.
  induction s as [|c s IH]; [reflexivity|]. cbn [plainAscii isASCII].
  intros [[Hc _]%andb_prop Hs]%andb_prop. unfold RuneSelf. rewrite Hc. auto.
Qed.

Section PrefixLowering.
Context `{CaseTables}.

Lemma Map_cons_ascii (c : ascii) (s : string) :
  byteval c < 128 →
  Map Unicode.ToLower (String c s) =
    String (if (65 <=? byteval c) && (byteval c <=? 90)
            then byteof (byteval c + 32) else c)
           (Map Unicode.ToLower s).
Proof.
  intros Hc. pose proof (byteval_range c) as Hr.
  rewrite !Map_runes. unfold range. rewrite rangeFrom_cons.
  rewrite DecodeRune_ascii by exact Hc. cbn [fmap list_fmap snd foldr fst].
  change (1 - 1)%nat with 0%nat. rewrite (rangeFrom_runes s 1 0 0).
  unfold Unicode.ToLower at 1 2, Unicode.MaxASCII.
  destruct (Z.leb_spec (byteval c) 127); [|lia].
  destruct ((65 <=? byteval c) && (byteval c <=? 90)) eqn:Hup.
  - apply andb_prop in Hup as [?%Z.leb_le ?%Z.leb_le].
    destruct (Z.leb_spec 0 (byteval c + 32)); [|lia].
    rewrite AppendRune_ascii by lia. reflexivity.
  - destruct (Z.leb_spec 0 (byteval c)); [|lia].
    rewrite AppendRune_ascii by lia. rewrite byteof_byteval. reflexivity.
Qed.

Lemma Map_ascii_prefix (pre tail : string) :
  isASCII pre = true →
  Map Unicode.ToLower (pre +:+ tail) = lowerBytes pre +:+ Map Unicode.ToLower tail.
Proof.
  induction pre as [|c pre IH]; [reflexivity|]. cbn [isASCII].
  intros [Hc Hpre]%andb_prop. apply Z.ltb_lt in Hc. unfold RuneSelf in Hc.
  rewrite append_cons, Map_cons_ascii by exact Hc. rewrite IH by exact Hpre.
  reflexivity.
Qed.

(** [ToLower] lowers an ASCII prefix byte by byte, whatever follows. *)
Lemma ToLower_ascii_prefix (pre tail : string) :
  isASCII pre = true →
  ∃ tail' : string, ToLower (pre +:+ tail) = lowerBytes pre +:+ tail'.
Proof.
  intros Hpre. unfold ToLower.
  destruct (isASCII (pre +:+ tail)).
  - destruct (hasUpper (pre +:+ tail)) eqn:Hup.
    + rewrite lowerBytes_app. eexists. reflexivity.
    + rewrite hasUpper_app in Hup. apply orb_false_elim in Hup as [Hup _].
      rewrite (lowerBytes_no_upper _ Hup). eexists. reflexivity.
  - rewrite Map_ascii_prefix by exact Hpre. eexists. reflexivity.
Qed.

End PrefixLowering.

Lemma lowerBytes_plain (s : string) :
  plainAscii s = true → plainAscii (lowerBytes s) = true.
Proof.
  induction s as [|c s IH]; [reflexivity|]. cbn [plainAscii lowerBytes].
  intros [[Hc Hd]%andb_prop Hs]%andb_prop. rewrite IH by exact Hs.
  destruct ((65 <=? byteval c) && (byteval c <=? 90)) eqn:Hup.
  - apply andb_prop in Hup as [?%Z.leb_le ?%Z.leb_le].
    rewrite byteval_byteof, Z.mod_small by lia.
    unfold isDelimiter.
    destruct (Z.ltb_spec (byteval c + 32) 128), (Z.eqb_spec (byteval c + 32) 45),
      (Z.eqb_spec (byteval c + 32) 95), (Z.eqb_spec (byteval c + 32) 46);
      try reflexivity; lia.
  - rewrite Hc, Hd. reflexivity.
Qed.

Lemma len_lowerBytes (s : string) : len (lowerBytes s) = len s.
Proof.
  unfold len. induction s as [|c s IH]; [reflexivity|].
  cbn [lowerBytes String.length]. rewrite IH. reflexivity.
Qed.

Lemma sliceTo_app (a b : string) : sliceTo (len a) (a +:+ b) = a.
Proof.
  unfold len. induction a as [|c a IH]; [destruct b; reflexivity|].
  rewrite append_cons. cbn [String.length sliceTo]. rewrite IH. reflexivity.
Qed.

(** The range loop over a string that starts with plain ASCII bytes
    followed by a delimiter stops at that delimiter. *)
Lemma find_delimiter_after_plain (pre : string) (d : ascii) (rest : string) :
  plainAscii pre = true → isDelimiter (byteval d) = true →
  ∀ i : nat,
    list_find (λ ir, isDelimiter ir.2 = true)
              (rangeFrom i 0 (pre +:+ String d rest))
    = Some (len pre, ((i + len pre)%nat, byteval d)).
Proof.
  intros Hpre Hd. unfold len.
  induction pre as [|c pre IH]; intros i.
  - change (EmptyString +:+ String d rest) with (String d rest).
    rewrite rangeFrom_cons.
    destruct (ResolverProps.isDelimiter_ascii _ Hd) as [Hlt _].
    rewrite DecodeRune_ascii by exact Hlt. cbn [list_find fst snd String.length].
    rewrite decide_True by exact Hd. rewrite Nat.add_0_r. reflexivity.
  - cbn [plainAscii] in Hpre.
    apply andb_prop in Hpre as [[Hc Hnd]%andb_prop Hpre]. apply Z.ltb_lt in Hc.
    rewrite append_cons, rangeFrom_cons, DecodeRune_ascii by exact Hc.
    cbn [list_find fst snd]. change (1 - 1)%nat with 0%nat.
    rewrite decide_False by (apply negb_true_iff in Hnd; congruence).
    rewrite (IH Hpre (S i)). cbn [String.length fmap option_fmap option_map prod_map fst snd].
    replace (i + S (String.length pre))%nat with (S i + String.length pre)%nat by lia.
    reflexivity.
Qed.

Lemma append_snoc (a : string) (d : ascii) (t : string) :
  (a +:+ String d EmptyString) +:+ t = a +:+ String d t.
Proof.
  induction a as [|c a IH]; [reflexivity|]. rewrite !append_cons, IH. reflexivity.
Qed.

Section Grouping.
Context `{CaseTables}.

(** X20.  For a non-empty run of ASCII bytes without delimiter,
    followed by a delimiter and then by anything at all, the family is that
    run, lower-cased: all models with one such prefix share one group. *)
Theorem family_is_the_lowered_prefix (fam : string) (d : ascii) (rest : string) :
  fam ≠ EmptyString → plainAscii fam = true → isDelimiter (byteval d) = true →
  extractModelFamily (fam +:+ String d rest) = lowerBytes fam.
Proof.
  intros Hne Hplain Hd. unfold extractModelFamily.
  rewrite bool_decide_eq_false_2 by (destruct fam; [congruence|discriminate]).
  destruct (ResolverProps.isDelimiter_ascii _ Hd) as [Hlt Hup].
  assert (Hpre : isASCII (fam +:+ String d EmptyString) = true).
  { rewrite isASCII_app, (plainAscii_isASCII _ Hplain). cbn [isASCII andb].
    unfold RuneSelf. rewrite andb_true_r. apply Z.ltb_lt. exact Hlt. }
  destruct (ToLower_ascii_prefix _ rest Hpre) as [rest' Hlow].
  rewrite append_snoc in Hlow. rewrite Hlow.
  rewrite lowerBytes_app. cbn [lowerBytes]. rewrite Hup.
  rewrite append_snoc. unfold range.
  rewrite (find_delimiter_after_plain _ _ _ (lowerBytes_plain _ Hplain) Hd 0).
  cbn [Nat.add]. rewrite len_lowerBytes.
  destruct (Nat.ltb_spec 0 (len fam)) as [_|Hz].
  - rewrite <- (len_lowerBytes fam). apply sliceTo_app.
  - destruct fam; [congruence|cbn in Hz; lia].
Qed.

End Grouping.

(** The bytes a multi-byte rune spans after its first byte are not
    ASCII. *)
Lemma DecodeRune_tail (c : ascii) (s : string) (j : nat) (c' : ascii) :
  (j < (DecodeRuneInString (String c s)).2 - 1)%nat →
  String.get j s = Some c' → 128 <= byteval c'.
Proof.
  unfold DecodeRuneInString, notCont.
  destruct (first (byteval c)) as [[[sz lo] hi]|] eqn:Hf; [|cbn [orb snd]; lia].
  apply first_Some in Hf as (Hlo & _ & _).
  destruct (len (String c s) <? sz)%nat; [cbn [orb snd]; lia|].
  destruct s as [|c1 s]; [cbn [orb snd]; lia|].
  destruct (Z.ltb_spec (byteval c1) lo); [cbn [orb snd]; lia|].
  destruct (hi <? byteval c1); [cbn [orb snd]; lia|]. cbn [orb].
  destruct (sz <=? 2)%nat.
  { cbn [snd]. intros Hj. destruct j; [|lia]. cbn. intros [= <-]. lia. }
  destruct s as [|c2 s]; [cbn [orb snd]; lia|].
  destruct (Z.ltb_spec (byteval c2) 128); [cbn [orb snd]; lia|].
  destruct (191 <? byteval c2); [cbn [orb snd]; lia|]. cbn [orb].
  destruct (sz <=? 3)%nat.
  { cbn [snd]. intros Hj. destruct j as [|[|j]]; [| |lia]; cbn; intros [= <-]; lia. }
  destruct s as [|c3 s]; [cbn [orb snd]; lia|].
  destruct (Z.ltb_spec (byteval c3) 128); [cbn [orb snd]; lia|].
  destruct (191 <? byteval c3); [cbn [orb snd]; lia|]. cbn [orb snd].
  intros Hj. destruct j as [|[|[|j]]]; [| | |lia]; cbn; intros [= <-]; lia.
Qed.

(** Every ASCII byte of a string is visited by the range loop, as the
    rune with its value at its index. *)
Lemma rangeFrom_ascii (s : string) : ∀ (i0 k j : nat) (c : ascii),
  (∀ (j' : nat) (c' : ascii),
     (j' < k)%nat → String.get j' s = Some c' → 128 <= byteval c') →
  String.get j s = Some c → byteval c < 128 →
  ((i0 + j)%nat, byteval c) ∈ rangeFrom i0 k s.
Proof.
  induction s as [|a s IH]; intros i0 k j c Hskip Hget Hc; [discriminate|].
  destruct k as [|k].
  - rewrite rangeFrom_cons. destruct j as [|j].
    + cbn in Hget. injection Hget as ->.
      rewrite DecodeRune_ascii by exact Hc. cbn [fst].
      rewrite Nat.add_0_r. apply list_elem_of_here.
    + apply list_elem_of_further. cbn in Hget.
      replace (i0 + S j)%nat with (S i0 + j)%nat by lia.
      apply IH; [|exact Hget|exact Hc].
      intros j' c' Hj' Hget'. eapply DecodeRune_tail; eassumption.
  - cbn [rangeFrom]. destruct j as [|j].
    + cbn in Hget. injection Hget as ->.
      specialize (Hskip 0%nat c ltac:(lia) eq_refl). lia.
    + cbn in Hget. replace (i0 + S j)%nat with (S i0 + j)%nat by lia.
      apply IH; [|exact Hget|exact Hc].
      intros j' c' Hj' Hget'. apply (Hskip (S j') c'); [lia|exact Hget'].
Qed.

(** The pair the loop stops at comes before every other pair that passes
    the test. *)
Lemma rangeFrom_find_first (P : nat * Z → Prop) `{∀ x, Decision (P x)}
    (s : string) : ∀ (i0 k n i : nat) (r : Z),
  list_find P (rangeFrom i0 k s) = Some (n, (i, r)) →
  ∀ (j : nat) (r' : Z), (j, r') ∈ rangeFrom i0 k s → P (j, r') → (i ≤ j)%nat.
Proof.
  induction s as [|a s IH]; intros i0 k n i r Hfind j r' Hin HP; [inversion Hin|].
  destruct k as [|k].
  - rewrite rangeFrom_cons in Hfind, Hin. cbn [list_find] in Hfind.
    destruct (decide (P (i0, (DecodeRuneInString (String a s)).1))) as [|Hno].
    + injection Hfind as _ <- _.
      apply elem_of_cons in Hin as [[= -> _]|Hin]; [lia|].
      apply rangeFrom_elem in Hin as (j' & _ & _ & -> & _). lia.
    + destruct (list_find P _) as [[n' [i' r0]]|] eqn:Hrec; [|discriminate].
      cbn in Hfind. injection Hfind as _ <- _.
      apply elem_of_cons in Hin as [[= -> ->]|Hin]; [contradiction|].
      eapply IH; eassumption.
  - cbn [rangeFrom] in Hfind, Hin. eapply IH; eassumption.
Qed.

Lemma get_sliceTo (i : nat) (s : string) : ∀ (j : nat) (c : ascii),
  String.get j (sliceTo i s) = Some c → (j < i)%nat ∧ String.get j s = Some c.
Proof.
  revert s. induction i as [|i IH]; intros s j c; [destruct s; discriminate|].
  destruct s as [|a s]; [discriminate|]. cbn [sliceTo].
  destruct j as [|j]; cbn; [intros [= ->]; split; [lia|reflexivity]|].
  intros Hget. apply IH in Hget as [Hj Hget]. split; [lia|exact Hget].
Qed.

Lemma hasDelimiterByte_false (s : string) :
  (∀ (j : nat) (c : ascii), String.get j s = Some c → isDelimiter (byteval c) = false) →
  hasDelimiterByte s = false.
Proof.
  induction s as [|a s IH]; intros Hall; [reflexivity|]. cbn [hasDelimiterByte].
  rewrite (Hall 0%nat a eq_refl), IH; [reflexivity|].
  intros j c Hget. apply (Hall (S j) c). exact Hget.
Qed.

Section NoDelimiter.
Context `{CaseTables}.

Lemma extractModelFamily_no_delimiter (model : string) :
  hasDelimiterByte (extractModelFamily model) = false.
Proof.
  unfold extractModelFamily.
  destruct (bool_decide (model = EmptyString)); [reflexivity|].
  set (L := ToLower model).
  assert (Hvisit : ∀ (j : nat) (c : ascii),
             String.get j L = Some c → isDelimiter (byteval c) = true →
             (j, byteval c) ∈ range L).
  { intros j c Hget Hd. destruct (ResolverProps.isDelimiter_ascii _ Hd) as [Hlt _].
    apply (rangeFrom_ascii L 0 0 j c); [intros; lia|exact Hget|exact Hlt]. }
  destruct (list_find _ (range L)) as [[n [i r]]|] eqn:Hfind.
  - destruct (0 <? i)%nat; [|reflexivity].
    apply hasDelimiterByte_false. intros j c Hget.
    apply get_sliceTo in Hget as [Hj Hget].
    destruct (isDelimiter (byteval c)) eqn:Hd; [|reflexivity].
    pose proof (rangeFrom_find_first (λ ir, isDelimiter ir.2 = true) L 0 0 n i r
                  Hfind j (byteval c) (Hvisit _ _ Hget Hd) Hd). lia.
  - apply hasDelimiterByte_false. intros j c Hget.
    destruct (isDelimiter (byteval c)) eqn:Hd; [|reflexivity].
    apply list_find_None in Hfind. rewrite Forall_forall in Hfind.
    exfalso. exact (Hfind _ (Hvisit _ _ Hget Hd) Hd).
Qed.

(** X21.  Whatever the model identifier and the case tables, the
    family contains none of the bytes ['-'], ['_'], ['.']. *)
Theorem family_has_no_delimiter (model : string) :
  hasDelimiterByte (extractModelFamily model) = false.
Proof. apply extractModelFamily_no_delimiter. Qed.

End NoDelimiter.

Lemma hasUpper_lowerBytes (s : string) : hasUpper (lowerBytes s) = false.
Proof.
  induction s as [|c s IH]; [reflexivity|]. cbn [lowerBytes hasUpper].
  rewrite IH, orb_false_r. pose proof (byteval_range c).
  destruct ((65 <=? byteval c) && (byteval c <=? 90)) eqn:Hup; [|exact Hup].
  apply andb_prop in Hup as [?%Z.leb_le ?%Z.leb_le].
  rewrite byteval_byteof, Z.mod_small by lia.
  destruct (Z.leb_spec 65 (byteval c + 32)), (Z.leb_spec (byteval c + 32) 90);
    try reflexivity; lia.
Qed.

Lemma isASCII_lowerBytes (s : string) : isASCII (lowerBytes s) = isASCII s.
Proof.
  induction s as [|c s IH]; [reflexivity|]. cbn [lowerBytes isASCII].
  rewrite IH. f_equal. pose proof (byteval_range c).
  destruct ((65 <=? byteval c) && (byteval c <=? 90)) eqn:Hup; [|reflexivity].
  apply andb_prop in Hup as [?%Z.leb_le ?%Z.leb_le].
  rewrite byteval_byteof, Z.mod_small by lia. unfold RuneSelf.
  destruct (Z.ltb_spec (byteval c + 32) 128), (Z.ltb_spec (byteval c) 128);
    try reflexivity; lia.
Qed.

Lemma isASCII_sliceTo (i : nat) (s : string) :
  isASCII s = true → isASCII (sliceTo i s) = true.
Proof.
  revert s. induction i as [|i IH]; intros s; [destruct s; reflexivity|].
  destruct s as [|c s]; [reflexivity|]. cbn [sliceTo isASCII].
  intros [-> Hs]%andb_prop. rewrite IH by exact Hs. reflexivity.
Qed.

Lemma hasUpper_sliceTo (i : nat) (s : string) :
  hasUpper s = false → hasUpper (sliceTo i s) = false.
Proof.
  revert s. induction i as [|i IH]; intros s; [destruct s; reflexivity|].
  destruct s as [|c s]; [reflexivity|]. cbn [sliceTo hasUpper].
  intros [-> Hs]%orb_false_elim. rewrite IH by exact Hs. reflexivity.
Qed.

Lemma get_sliceFrom (s : string) : ∀ (j : nat) (c : ascii) (t : string),
  sliceFrom j s = String c t → String.get j s = Some c.
Proof.
  induction s as [|a s IH]; intros j c t; [destruct j; discriminate|].
  destruct j as [|j]; cbn [sliceFrom]; [intros [= -> _]; reflexivity|].
  intros Hs. cbn. eapply IH, Hs.
Qed.

Lemma hasDelimiterByte_get (s : string) : ∀ (j : nat) (c : ascii),
  hasDelimiterByte s = false → String.get j s = Some c →
  isDelimiter (byteval c) = false.
Proof.
  induction s as [|a s IH]; intros j c; [discriminate|]. cbn [hasDelimiterByte].
  intros [Ha Hs]%orb_false_elim. destruct j as [|j]; cbn.
  - intros [= <-]. exact Ha.
  - apply IH, Hs.
Qed.

(** A delimiter met by the range loop is a delimiter byte of the
    string. *)
Lemma range_delimiter_byte (s : string) (i : nat) (x : Z) :
  (i, x) ∈ range s → isDelimiter x = true →
  ∃ c : ascii, String.get i s = Some c ∧ byteval c = x.
Proof.
  intros Hin Hd. apply rangeFrom_elem in Hin as (j & c & t & -> & Hs & ->).
  destruct (ResolverProps.isDelimiter_ascii _ Hd) as [Hlt _].
  exists c. split; [eapply get_sliceFrom, Hs|].
  destruct (Z.lt_ge_cases (byteval c) 128) as [Hc|Hc].
  - rewrite DecodeRune_ascii by exact Hc. reflexivity.
  - pose proof (DecodeRune_nonascii c t Hc). lia.
Qed.

Section AsciiCase.
Context `{CaseTables}.

Lemma ToLower_ascii (s : string) : isASCII s = true → ToLower s = lowerBytes s.
Proof.
  intros Hs. unfold ToLower. rewrite Hs.
  destruct (hasUpper s) eqn:Hup; [reflexivity|].
  symmetry. apply lowerBytes_no_upper, Hup.
Qed.

Lemma ToLower_lowered (s : string) :
  isASCII s = true → hasUpper s = false → ToLower s = s.
Proof. intros Hs Hup. unfold ToLower. rewrite Hs, Hup. reflexivity. Qed.

(** X22.  For an ASCII model identifier the family does not depend
    on letter case: the identifier and its lower-cased form have the same
    family. *)
Theorem family_ignores_ascii_case (model : string) :
  isASCII model = true →
  extractModelFamily (ToLower model) = extractModelFamily model.
Proof.
  intros Hm. rewrite (ToLower_ascii _ Hm). unfold extractModelFamily.
  rewrite (ToLower_ascii _ Hm).
  rewrite (ToLower_lowered (lowerBytes model))
    by (rewrite ?isASCII_lowerBytes; auto using hasUpper_lowerBytes).
  destruct model as [|c s]; reflexivity.
Qed.

(** X23.  For an ASCII model identifier the family is a fixed point
    of the resolver: resolving a family gives the family back. *)
Theorem family_of_a_family (model : string) :
  isASCII model = true →
  extractModelFamily (extractModelFamily model) = extractModelFamily model.
Proof.
  intros Hm.
  pose proof (extractModelFamily_no_delimiter model) as Hnd.
  assert (isASCII (extractModelFamily model) = true
          ∧ hasUpper (extractModelFamily model) = false) as [Hascii Hup].
  { unfold extractModelFamily.
    destruct (bool_decide (model = EmptyString)); [auto|].
    rewrite (ToLower_ascii _ Hm).
    assert (isASCII (lowerBytes model) = true) as HL
      by (rewrite isASCII_lowerBytes; exact Hm).
    pose proof (hasUpper_lowerBytes model) as HU.
    destruct (list_find _ _) as [[n [i r]]|]; [|auto].
    destruct (0 <? i)%nat; [|auto].
    auto using isASCII_sliceTo, hasUpper_sliceTo. }
  set (r := extractModelFamily model) in *.
  unfold extractModelFamily at 1.
  destruct (bool_decide_reflect (r = EmptyString)) as [->|_]; [reflexivity|].
  rewrite (ToLower_lowered r Hascii Hup).
  destruct (list_find _ (range r)) as [[n [i x]]|] eqn:Hfind; [|reflexivity].
  apply list_find_Some in Hfind as (Hl & Hd & _). cbn [snd] in Hd.
  apply list_elem_of_lookup_2 in Hl.
  destruct (range_delimiter_byte _ _ _ Hl Hd) as (c & Hget & <-).
  rewrite (hasDelimiterByte_get _ _ _ Hnd Hget) in Hd. discriminate.
Qed.

End AsciiCase.
End FamilyExtra.

(** ** The further properties at sample inputs *)

Module ExtraChecks.
Import GoBytes Utf8 Strings GoTime Auth Util Samples.
Import UtilHistory AuthRuntime StringsSpec FamilySpec.
Import CacheExtra IndexExtra RuntimeExtra RegistryExtra FamilyExtra.

#[local] Existing Instance caselessTables.

Lemma get_after_set_witness :
  TokenCache_Get (TokenCache_Set (runSets NewTokenCache fillShard3) firstCall.1 7)
    firstCall.1 = (7, true).
Proof. exact (get_after_set fillShard3 firstCall.1 firstCall.1 7 eq_refl). Defined.

Lemma set_keeps_other_hashes_witness :
  TokenCache_Get
    (TokenCache_Set (runSets NewTokenCache fillShard3) oneMore.1 oneMore.2)
    "prompt-18" = (2, true)
  ∧ TokenCache_Get
      (TokenCache_Set (runSets NewTokenCache fillShard3) oneMore.1 oneMore.2)
      firstCall.1 = (0, false).
Proof.
  assert (H18 : hashContent "prompt-18" ≠ hashContent oneMore.1).
  { refine (bool_decide_unpack _ _). vm_compute. exact I. }
  assert (H3 : hashContent firstCall.1 ≠ hashContent oneMore.1).
  { refine (bool_decide_unpack _ _). vm_compute. exact I. }
  pose proof (set_keeps_other_hashes fillShard3 oneMore.1 "prompt-18" oneMore.2 H18)
    as E18.
  pose proof (set_keeps_other_hashes fillShard3 oneMore.1 firstCall.1 oneMore.2 H3)
    as E3.
  cbv zeta in E18, E3. rewrite E18, E3.
  split; vm_compute; reflexivity.
Defined.

Lemma shards_hold_their_own_distinct_hashes_witness :
  NoDup (hash <$> entries (mkShard (newEntry <$> fillShard3)))
  ∧ Forall (λ e, shardOf (hash e) = 3%nat)
           (entries (mkShard (newEntry <$> fillShard3))).
Proof.
  assert (Hat : shards (runSets NewTokenCache fillShard3) !! 3%nat
                = Some (mkShard (newEntry <$> fillShard3))).
  { vm_compute. reflexivity. }
  exact (shards_hold_their_own_distinct_hashes fillShard3 3%nat _ Hat).
Defined.

Lemma blocked_answer_is_in_the_future_witness :
  After (isGroupBlocked "claude" newYear
           (setGroupBlocked "claude" "claude-a" (Add newYear (10 * Second))
              zeroTime freshIndex)).1.2
        newYear = true
  ∧ (isGroupBlocked "claude" newYear
       (setGroupBlocked "claude" "claude-a" (Add newYear (10 * Second))
          zeroTime freshIndex)).2
    = setGroupBlocked "claude" "claude-a" (Add newYear (10 * Second))
        zeroTime freshIndex.
Proof.
  apply (proj1 (blocked_answer_is_in_the_future
                  (setGroupBlocked "claude" "claude-a" (Add newYear (10 * Second))
                     zeroTime freshIndex)
                  "claude" newYear)).
  vm_compute. reflexivity.
Defined.


Lemma other_groups_are_untouched_witness :
  (isGroupBlocked "gemini" newYear
     (setGroupBlocked "claude" "claude-a" (Add newYear (10 * Second)) zeroTime
        freshIndex)).1
  = (isGroupBlocked "gemini" newYear freshIndex).1
  ∧ (isGroupBlocked "gemini" newYear (clearGroup "claude" freshIndex)).1
    = (isGroupBlocked "gemini" newYear freshIndex).1
  ∧ (isGroupBlocked "gemini" newYear
       (isGroupBlocked "claude" newYear freshIndex).2).1
    = (isGroupBlocked "gemini" newYear freshIndex).1.
Proof.
  apply (other_groups_are_untouched freshIndex "claude" "gemini" "claude-a"
           (Add newYear (10 * Second)) zeroTime newYear newYear).
  discriminate.
Defined.

Lemma unblocked_stays_unblocked_witness :
  (isGroupBlocked "claude" newYear
     (isGroupBlocked "claude" (Add newYear (11 * Second))
        (setGroupBlocked "claude" "claude-a" (Add newYear (10 * Second))
           zeroTime freshIndex)).2).1
  = (false, zeroTime).
Proof.
  apply (unblocked_stays_unblocked
           (setGroupBlocked "claude" "claude-a" (Add newYear (10 * Second))
              zeroTime freshIndex)
           "claude" (Add newYear (11 * Second)) newYear).
  vm_compute. reflexivity.
Defined.


Lemma last_block_wins_witness :
  setGroupBlocked "claude" "claude-b" (Add newYear (5 * Second)) zeroTime
    (clearGroup "claude" freshIndex)
  = setGroupBlocked "claude" "claude-b" (Add newYear (5 * Second)) zeroTime
      freshIndex.
Proof.
  apply (proj2 (last_block_wins freshIndex "claude" "claude-a" "claude-b"
                  (Add newYear (10 * Second)) zeroTime
                  (Add newYear (5 * Second)) zeroTime)).
  discriminate.
Defined.

Lemma fast_set_agrees_with_resolvers_witness :
  (∀ model, ResolveQuotaGroup "openai" model (registryAfter [initCall]) = EmptyString)
  ∧ "Antigravity"%string ≠ EmptyString.
Proof.
  split.
  - apply (proj1 (fast_set_agrees_with_resolvers [initCall] "openai")).
    vm_compute. reflexivity.
  - apply (proj2 (fast_set_agrees_with_resolvers [initCall] "Antigravity")).
    vm_compute. reflexivity.
Defined.

Lemma registrations_commute_witness :
  RegisterQuotaGroupResolver "openai" (Some AntigravityQuotaGroupResolver)
    (RegisterQuotaGroupResolver " Gemini " (Some (λ _ model, model)) emptyRegistry)
  = RegisterQuotaGroupResolver " Gemini " (Some (λ _ model, model))
      (RegisterQuotaGroupResolver "openai" (Some AntigravityQuotaGroupResolver)
         emptyRegistry).
Proof.
  apply registrations_commute. vm_compute. discriminate.
Defined.

Lemma blank_registration_is_ignored_witness :
  RegisterQuotaGroupResolver "   " (Some AntigravityQuotaGroupResolver)
    (registryAfter [initCall])
  = registryAfter [initCall].
Proof.
  apply blank_registration_is_ignored. left. reflexivity.
Defined.

Lemma registration_touches_one_key_witness :
  HasQuotaGrouping "Antigravity"
    (RegisterQuotaGroupResolver " OpenAI " (Some (λ _ model, model))
       (registryAfter [initCall]))
  = HasQuotaGrouping "Antigravity" (registryAfter [initCall])
  ∧ ∀ model,
      ResolveQuotaGroup "Antigravity" model
        (RegisterQuotaGroupResolver " OpenAI " (Some (λ _ model, model))
           (registryAfter [initCall]))
      = ResolveQuotaGroup "Antigravity" model (registryAfter [initCall]).
Proof.
  apply (proj1 (registration_touches_one_key " OpenAI " "Antigravity"
                  (Some (λ _ model, model)) (registryAfter [initCall]))).
  vm_compute. discriminate.
Defined.

Lemma antigravity_groups_by_family_witness :
  HasQuotaGrouping "AntiGravity"
    (registryAfter [initCall; ("openai"%string, Some (λ _ model, model))]) = true
  ∧ ResolveQuotaGroup "AntiGravity" "claude-sonnet-4"
      (registryAfter [initCall; ("openai"%string, Some (λ _ model, model))])
    = extractModelFamily "claude-sonnet-4".
Proof.
  apply (antigravity_groups_by_family
           [("openai"%string, Some (λ _ model, model))]
           "AntiGravity" "claude-sonnet-4").
  - intros q r Hin. apply list_elem_of_singleton in Hin.
    injection Hin as -> _. vm_compute. discriminate.
  - vm_compute. reflexivity.
  - discriminate.
Defined.

Lemma family_is_the_lowered_prefix_witness :
  extractModelFamily ("Claude" +:+ String "-" "Opus-4.5") = lowerBytes "Claude".
Proof.
  apply family_is_the_lowered_prefix.
  - discriminate.
  - vm_compute. reflexivity.
  - vm_compute. reflexivity.
Defined.

Lemma family_ignores_ascii_case_witness :
  extractModelFamily (ToLower "Gemini-2.5-Pro") = extractModelFamily "Gemini-2.5-Pro".
Proof. apply family_ignores_ascii_case. vm_compute. reflexivity. Defined.

Lemma family_of_a_family_witness :
  extractModelFamily (extractModelFamily "Gemini-2.5-Pro")
  = extractModelFamily "Gemini-2.5-Pro".
Proof. apply family_of_a_family. vm_compute. reflexivity. Defined.

End ExtraChecks.
